(** * mdash documentation site: search index, query engine and sidebar cursor

    A shallow embedding of the two browser scripts of the site:
    the documentation search (index build, substring query, result
    rendering with highlighting, debounced input) and the sidebar keyboard
    navigation (the cursor over the navigable items).

    JavaScript strings are sequences of UTF-16 code units; they are modelled
    as lists of [N].  The page DOM is an external collaborator: the model
    records exactly what the scripts read from it. *)

From Stdlib Require Import NArith ZArith Lia Ascii String.
From stdpp Require Import base list.

Local Open Scope N_scope.

(** ** JavaScript strings and the built-ins the scripts call *)

Module JS.

Abbreviation jsstring := (list N).

(** A string literal of the source, as code units (Basic Latin only). *)
Definition lit (s : string) : jsstring :=
  List.map N_of_ascii (list_ascii_of_string s).

(** Truthiness of a string: only the empty string is falsy. *)
Definition truthy (s : jsstring) : bool :=
  match s with [] => false | _ :: _ => true end.

(** [a || b] on strings. *)
Definition orElse (a b : jsstring) : jsstring := if truthy a then a else b.

(** WhiteSpace and LineTerminator code units, the ones [trim] strips. *)
Definition isWhiteSpace (c : N) : bool :=
  ((9 <=? c) && (c <=? 13)) || (c =? 32) || (c =? 160) || (c =? 5760)
  || ((8192 <=? c) && (c <=? 8202)) || (c =? 8232) || (c =? 8233)
  || (c =? 8239) || (c =? 8287) || (c =? 12288) || (c =? 65279).

Fixpoint trimStart (s : jsstring) : jsstring :=
  match s with
  | [] => []
  | c :: s' => if isWhiteSpace c then trimStart s' else s
  end.

Definition trimEnd (s : jsstring) : jsstring := rev (trimStart (rev s)).

(** [s.trim()] *)
Definition trim (s : jsstring) : jsstring := trimEnd (trimStart s).

(** [s.startsWith(p)] *)
Fixpoint startsWith (s p : jsstring) {struct p} : bool :=
  match p, s with
  | [], _ => true
  | _ :: _, [] => false
  | a :: p', b :: s' => (a =? b) && startsWith s' p'
  end.

(** [s.includes(q)]: [q] occurs in [s] at some position. *)
Fixpoint includes (s q : jsstring) : bool :=
  startsWith s q ||
  match s with
  | [] => false
  | _ :: s' => includes s' q
  end.

(** Clamping of a [substring] argument to [0 .. len]. *)
Definition clampIndex (len : nat) (i : Z) : nat :=
  Z.to_nat (Z.min (Z.max i 0) (Z.of_nat len)).

(** [s.substring(start, end)]; [end_ = None] is the omitted argument. *)
Definition substring (start : Z) (end_ : option Z) (s : jsstring) : jsstring :=
  let len := length s in
  let a := clampIndex len start in
  let b := match end_ with Some e => clampIndex len e | None => len end in
  take (Nat.max a b - Nat.min a b) (drop (Nat.min a b) s).

(** Relative index of [Array.prototype.slice]: negative counts from the end. *)
Definition relIndex (len : nat) (i : Z) : nat :=
  if (i <? 0)%Z then Z.to_nat (Z.max (Z.of_nat len + i) 0)
  else Z.to_nat (Z.min i (Z.of_nat len)).

(** [l.slice(start, end)] *)
Definition slice {A} (start end_ : Z) (l : list A) : list A :=
  let k := relIndex (length l) start in
  let final := relIndex (length l) end_ in
  take (final - k) (drop k l).

(** The host's case mappings.  [toLowerCase] is [String.prototype.toLowerCase]
    (a whole-string Unicode mapping, it may change the length);
    [canonicalize] is the per-code-unit case folding a regular expression
    with the [i] flag applies to pattern and input. *)
Class Host := {
  toLowerCase : jsstring -> jsstring;
  canonicalize : N -> N
}.

(** Case mappings of the Basic Latin letters, all other code units fixed. *)
Definition latinLower (c : N) : N :=
  if (65 <=? c) && (c <=? 90) then c + 32 else c.

Definition latinUpper (c : N) : N :=
  if (97 <=? c) && (c <=? 122) then c - 32 else c.

Definition latinHost : Host :=
  {| toLowerCase := List.map latinLower; canonicalize := latinUpper |}.

End JS.

Import JS.

(** ** The page, as the search script reads it *)

(** An opaque reference to a DOM element. *)
Abbreviation node := nat.

(** A [.doc-section] container: its [id] attribute, the text of the first
    [h1, h2, h3] inside it, and the texts of its [p, li, td, .info-box]
    descendants in document order. *)
Record docSection := {
  sec_id : option jsstring;
  sec_heading : option jsstring;
  sec_texts : list jsstring;
  sec_node : node
}.

(** A [.sidebar-nav a] link: its [href] attribute, its text, and the
    enclosing [.nav-group] if any, with the text of the group's
    [.nav-group-title] if it has one. *)
Record navLink := {
  link_href : option jsstring;
  link_text : jsstring;
  link_group : option (option jsstring)
}.

Record document := {
  doc_sections : list docSection;
  doc_navLinks : list navLink;
  doc_ids : list (jsstring * node)
}.

(** [element.id]: the attribute's value, the empty string when absent. *)
Definition elementId (s : docSection) : jsstring := default [] (sec_id s).

(** [document.getElementById(id)] *)
Definition getElementById (d : document) (id : jsstring) : option node :=
  if truthy id
  then snd <$> List.find (fun e => bool_decide (fst e = id)) (doc_ids d)
  else None.

(** ** The search index *)

Record item := {
  id : jsstring;
  title : jsstring;
  content : jsstring;
  section : jsstring;
  element : option node
}.

(** The link [.sidebar-nav a[href="#id"]] selects: the first link whose
    [href] attribute is exactly ["#" + id] (the id is spliced into the
    selector as it is; an id with a quote or a backslash in it, which would
    make another selector of it, is outside this model). *)
Definition linkTo (d : document) (i : jsstring) : option navLink :=
  List.find (fun l => bool_decide (link_href l = Some (lit "#" ++ i)))
            (doc_navLinks d).

Definition findParentSection (d : document) (s : docSection) : jsstring :=
  let i := elementId s in
  if negb (truthy i) then []
  else match linkTo d i with
       | Some navLink =>
           match link_group navLink with
           | Some group =>
               match group with
               | Some groupTitle => trim groupTitle
               | None => []
               end
           | None => []
           end
       | None => []
       end.

(** The text gathered from a section: [content += ' ' + el.textContent]. *)
Definition gatherContent (texts : list jsstring) : jsstring :=
  fold_left (fun acc t => acc ++ lit " " ++ t) texts [].

(** One turn of the loop over the [.doc-section] containers. *)
Definition indexSection (d : document) (searchIndex : list item)
    (s : docSection) : list item :=
  let i := orElse (elementId s) [] in
  let t := match sec_heading s with Some h => trim h | None => [] end in
  let c := substring 0 (Some 500%Z) (trim (gatherContent (sec_texts s))) in
  if truthy t || truthy c
  then searchIndex ++ [ {| id := i; title := t; content := c;
                           section := findParentSection d s;
                           element := Some (sec_node s) |} ]
  else searchIndex.

(** [searchIndex.some(item => item.id === targetId)] *)
Definition idExists (searchIndex : list item) (targetId : jsstring) : bool :=
  existsb (fun it => bool_decide (id it = targetId)) searchIndex.

(** One turn of the loop over the sidebar links. *)
Definition indexLink (d : document) (searchIndex : list item)
    (link : navLink) : list item :=
  match link_href link with
  | Some href =>
      if truthy href && startsWith href (lit "#") then
        let targetId := substring 1 None href in
        if negb (idExists searchIndex targetId) then
          searchIndex ++ [ {| id := targetId; title := trim (link_text link);
                               content := [];
                               section :=
                                 orElse (default [] (default None (link_group link))) [];
                               element := getElementById d targetId |} ]
        else searchIndex
      else searchIndex
  | None => searchIndex
  end.

(** [buildSearchIndex]: pushes onto the module's [searchIndex], which is
    passed in and returned. *)
Definition buildSearchIndex (d : document) (searchIndex : list item) : list item :=
  let afterSections := fold_left (indexSection d) (doc_sections d) searchIndex in
  fold_left (indexLink d) (doc_navLinks d) afterSections.

(** [init] starts from the empty index of the module's declaration;
    [window.mdashSearch.reindex] is [buildSearchIndex] itself. *)
Definition init (d : document) : list item := buildSearchIndex d [].

Definition reindex (d : document) (searchIndex : list item) : list item :=
  buildSearchIndex d searchIndex.

(** ** Rendering helpers *)

(** [escapeHtml]: the text is assigned to a fresh element's [textContent]
    and read back through [innerHTML]; the HTML serialisation of a text node
    replaces [&], [<], [>] and the no-break space by their entities. *)
Definition escapeHtmlChar (c : N) : jsstring :=
  if c =? 38 then lit "&amp;"
  else if c =? 60 then lit "&lt;"
  else if c =? 62 then lit "&gt;"
  else if c =? 160 then lit "&nbsp;"
  else [c].

Definition escapeHtml (text : jsstring) : jsstring :=
  flat_map escapeHtmlChar text.

(** The character class of [escapeRegex]: the dot, the star, the plus, the
    question mark, the caret, the dollar, the braces, the parentheses, the
    bar, the brackets and, last, the backslash (code unit 92). *)
Definition escapeClass : jsstring := lit ".*+?^${}()|[]" ++ [92].

Definition inEscapeClass (c : N) : bool := bool_decide (c ∈ escapeClass).

(** [escapeRegex]: every code unit of the class is replaced by a backslash
    followed by itself (the replacement is ['\\$&']). *)
Definition escapeRegex (s : jsstring) : jsstring :=
  flat_map (fun c => if inEscapeClass c then [92; c] else [c]) s.

(** [truncate(text, length)] *)
Definition truncate (text : jsstring) (len : nat) : jsstring :=
  if (length text <=? len)%nat then text
  else substring 0 (Some (Z.of_nat len)) text ++ lit "...".

(** *** Regular expressions, as far as [highlightMatch] needs them

    The SyntaxCharacters of a pattern, in the order the language
    specification lists them; the backslash (code unit 92) is the third. *)
Definition syntaxChars : jsstring := lit "^$" ++ [92] ++ lit ".*+?()[]{}|".

Definition isSyntaxChar (c : N) : bool := bool_decide (c ∈ syntaxChars).

Inductive token :=
  | TChar (c : N)   (* a pattern character, or an escaped syntax character *)
  | TOpen           (* an opening parenthesis *)
  | TClose.         (* a closing parenthesis *)

(** The tokens of a pattern source made of plain characters, identity
    escapes of syntax characters and parentheses.  [None]: the source has
    something else (an operator, a class, an assertion, another escape) or
    ends in a lone backslash. *)
Fixpoint tokenize (src : jsstring) : option (list token) :=
  match src with
  | [] => Some []
  | c :: rest =>
      if c =? 92 then
        match rest with
        | d :: rest' =>
            if isSyntaxChar d then cons (TChar d) <$> tokenize rest' else None
        | [] => None
        end
      else if c =? 40 then cons TOpen <$> tokenize rest
      else if c =? 41 then cons TClose <$> tokenize rest
      else if isSyntaxChar c then None
      else cons (TChar c) <$> tokenize rest
  end.

(** The characters of a sequence of tokens up to the closing parenthesis
    that ends the pattern. *)
Fixpoint groupBody (ts : list token) : option (list N) :=
  match ts with
  | [TClose] => Some []
  | TChar c :: ts' => cons c <$> groupBody ts'
  | _ => None
  end.

(** [new RegExp(src, 'gi')] for a source of the shape [(c1 c2 ... cn)]: one
    capturing group around a sequence of characters.  The result is that
    sequence; [None] stands for every other source, among them the ones the
    constructor rejects with a SyntaxError. *)
Definition compileGroup (src : jsstring) : option (list N) :=
  match tokenize src with
  | Some (TOpen :: ts) => groupBody ts
  | _ => None
  end.

Section WithHost.
Context `{Host}.

(** The pattern [pat] matches at the start of [s], ignoring case. *)
Fixpoint matchAt (pat : list N) (s : jsstring) : bool :=
  match pat, s with
  | [], _ => true
  | _ :: _, [] => false
  | p :: pat', c :: s' =>
      (canonicalize p =? canonicalize c) && matchAt pat' s'
  end.

(** The replacement ['<mark>$1</mark>'], [$1] being the text the group
    matched. *)
Definition markUp (m : jsstring) : jsstring :=
  lit "<mark>" ++ m ++ lit "</mark>".

(** [s.replace(regex, '<mark>$1</mark>')] with the [g] flag: matches are
    searched from left to right, each search starting where the previous
    match ended (one further on after an empty match).  [skip] counts the
    code units of [s] already consumed by the last match. *)
Fixpoint replaceAll (pat : list N) (skip : nat) (s : jsstring) : jsstring :=
  match s with
  | [] => if matchAt pat [] then markUp [] else []
  | c :: s' =>
      match skip with
      | S k => replaceAll pat k s'
      | O =>
          if matchAt pat s then
            markUp (take (length pat) s) ++
            match length pat with
            | O => c :: replaceAll pat 0 s'
            | S k => replaceAll pat k s'
            end
          else c :: replaceAll pat 0 s'
      end
  end.

(** [highlightMatch(text, query)]; [None] is a thrown exception. *)
Definition highlightMatch (text query : jsstring) : option jsstring :=
  if negb (truthy query) then Some (escapeHtml text)
  else
    let escaped := escapeHtml text in
    regex ← compileGroup (lit "(" ++ escapeRegex query ++ lit ")");
    Some (replaceAll regex 0 escaped).

(** ** Query and rendering *)

(** One rendered [.search-result-item]. *)
Record resultItem := {
  href : jsstring;
  selected : bool;
  dataIndex : nat;
  sectionHtml : option jsstring;
  titleHtml : jsstring;
  excerptHtml : option jsstring
}.

(** What [searchResults.innerHTML] is set to. *)
Inductive panel :=
  | Blank                               (* the empty string *)
  | NoResults (queryHtml : jsstring)    (* the [.search-empty] block *)
  | Results (items : list resultItem).

Definition renderItem (query : jsstring) (index : nat) (it : item)
    : option resultItem :=
  t ← highlightMatch (title it) query;
  e ← (if truthy (content it)
       then Some <$> highlightMatch (truncate (content it) 150) query
       else Some None);
  Some {| href := lit "#" ++ id it;
          selected := bool_decide (index = 0%nat);
          dataIndex := index;
          sectionHtml := if truthy (section it)
                         then Some (escapeHtml (section it)) else None;
          titleHtml := t;
          excerptHtml := e |}.

Definition renderResults (results : list item) (query : jsstring)
    : option panel :=
  if bool_decide (length results = 0%nat)
  then Some (NoResults (escapeHtml query))
  else Results <$> mapM (fun p => renderItem query (fst p) (snd p))
                        (imap pair results).

(** The predicate of the [filter] in [handleSearch]. *)
Definition matchesQuery (query : jsstring) (it : item) : bool :=
  let titleMatch := includes (toLowerCase (title it)) query in
  let contentMatch := includes (toLowerCase (content it)) query in
  titleMatch || contentMatch.

(** [searchIndex.filter(...).slice(0, 10)] *)
Definition searchResultsFor (query : jsstring) (searchIndex : list item)
    : list item :=
  slice 0 10 (List.filter (matchesQuery query) searchIndex).

(** [handleSearch]: from [searchInput.value] and the index to the new
    contents of the results panel; [None] is a thrown exception. *)
Definition handleSearch (value : jsstring) (searchIndex : list item)
    : option panel :=
  let query := toLowerCase (trim value) in
  if negb (truthy query) then Some Blank
  else renderResults (searchResultsFor query searchIndex) query.

End WithHost.

(** ** Timers and the debounced input handler

    The script runs on the page's event loop.  Time is a count of
    milliseconds; the only timers of the script are the ones [debounce]
    sets, and their callback is [fn.apply(this, args)] with [fn] the
    handler given to [debounce], which is [handleSearch]. *)

Record timer := { timer_id : nat; due : nat }.

Record page := {
  now : nat;
  nextTimerId : nat;
  timers : list timer;          (* set and neither fired nor cleared *)
  timeout : option nat;         (* the variable of [debounce]'s closure *)
  inputValue : jsstring;        (* [searchInput.value] *)
  searchIndex : list item;
  resultsPanel : panel;         (* [searchResults.innerHTML] *)
  evaluated : list (nat * jsstring)
    (* every run of [handleSearch]: when, and the input value it read *)
}.

Definition setClock (t : nat) (p : page) : page :=
  {| now := t; nextTimerId := nextTimerId p; timers := timers p;
     timeout := timeout p; inputValue := inputValue p;
     searchIndex := searchIndex p; resultsPanel := resultsPanel p;
     evaluated := evaluated p |}.

Definition setTimers (q : list timer) (p : page) : page :=
  {| now := now p; nextTimerId := nextTimerId p; timers := q;
     timeout := timeout p; inputValue := inputValue p;
     searchIndex := searchIndex p; resultsPanel := resultsPanel p;
     evaluated := evaluated p |}.

Definition setInputValue (v : jsstring) (p : page) : page :=
  {| now := now p; nextTimerId := nextTimerId p; timers := timers p;
     timeout := timeout p; inputValue := v;
     searchIndex := searchIndex p; resultsPanel := resultsPanel p;
     evaluated := evaluated p |}.

(** [clearTimeout(id)]; [None] is [undefined], which clears nothing. *)
Definition clearTimeout (i : option nat) (p : page) : page :=
  setTimers (List.filter (fun t => negb (bool_decide (Some (timer_id t) = i)))
                         (timers p)) p.

(** The queue of pending timers is kept in the order they fire: by due
    time, and by age among equals. *)
Fixpoint schedule (t : timer) (q : list timer) : list timer :=
  match q with
  | [] => [t]
  | u :: q' => if (due u <=? due t)%nat then u :: schedule t q' else t :: q
  end.

(** [setTimeout(callback, delay)]: the identifier of the new timer, and the
    page with the timer pending. *)
Definition setTimeout (delay : nat) (p : page) : nat * page :=
  let i := nextTimerId p in
  (i, {| now := now p; nextTimerId := S i;
         timers := schedule {| timer_id := i; due := (now p + delay)%nat |} (timers p);
         timeout := timeout p; inputValue := inputValue p;
         searchIndex := searchIndex p; resultsPanel := resultsPanel p;
         evaluated := evaluated p |}).

(** The function [debounce(fn, delay)] returns, called once:
    [clearTimeout(timeout); timeout = setTimeout(..., delay)]. *)
Definition debounce (delay : nat) (p : page) : page :=
  let p1 := clearTimeout (timeout p) p in
  let '(i, p2) := setTimeout delay p1 in
  {| now := now p2; nextTimerId := nextTimerId p2; timers := timers p2;
     timeout := Some i; inputValue := inputValue p2;
     searchIndex := searchIndex p2; resultsPanel := resultsPanel p2;
     evaluated := evaluated p2 |}.

Section Loop.
Context `{Host}.

(** A run of [handleSearch] on the page; an exception leaves the panel as
    it was. *)
Definition runHandleSearch (p : page) : page :=
  {| now := now p; nextTimerId := nextTimerId p; timers := timers p;
     timeout := timeout p; inputValue := inputValue p;
     searchIndex := searchIndex p;
     resultsPanel := default (resultsPanel p)
                       (handleSearch (inputValue p) (searchIndex p));
     evaluated := evaluated p ++ [(now p, inputValue p)] |}.

(** A pending timer fires: it leaves the queue and its callback runs. *)
Definition fire (t : timer) (p : page) : page :=
  runHandleSearch (clearTimeout (Some (timer_id t)) (setClock (due t) p)).

(** The timers due by [target] fire, in queue order. *)
Fixpoint fireDue (target : nat) (q : list timer) (p : page) : page :=
  match q with
  | [] => p
  | t :: q' =>
      if (due t <=? target)%nat then fireDue target q' (fire t p) else p
  end.

(** [ms] milliseconds pass with no input. *)
Definition elapse (ms : nat) (p : page) : page :=
  let target := (now p + ms)%nat in
  setClock target (fireDue target (timers p) p).

(** An [input] event of the search box: the box has its new value, and
    the listener of [bindEvents], [debounce(handleSearch, 150)], is called. *)
Definition onInput (value : jsstring) (p : page) : page :=
  debounce 150 (setInputValue value p).

Inductive event :=
  | Input (value : jsstring)
  | Elapse (ms : nat).

Definition step (p : page) (e : event) : page :=
  match e with
  | Input v => onInput v p
  | Elapse ms => elapse ms p
  end.

Definition run (es : list event) (p : page) : page := fold_left step es p.

End Loop.

(** ** Sidebar keyboard navigation: the cursor *)

(** A navigable element of the sidebar: an [a[href^="#"]] link or a
    [.nav-group-title]; [dataset.navIndex] once [collectNavItems] wrote it;
    whether the element can take focus (a link of a collapsed group is not
    displayed and cannot). *)
Record navItem := {
  isAnchor : bool;
  navIndex : option nat;
  takesFocus : bool
}.

Record sidebar := {
  navItems : list navItem;
  currentIndex : Z
}.

(** [collectNavItems]: the elements found in the sidebar, each given its
    position as [dataset.navIndex]. *)
Definition collectNavItems (found : list navItem) : list navItem :=
  imap (fun index it => {| isAnchor := isAnchor it; navIndex := Some index;
                           takesFocus := takesFocus it |}) found.

(** [navItems[index]] *)
Definition itemAt (sb : sidebar) (index : Z) : option navItem :=
  if (index <? 0)%Z then None else navItems sb !! Z.to_nat index.

(** The sidebar's [focusin] listener:
    [index = parseInt(target.dataset.navIndex)], and
    [currentIndex = index] unless that is NaN. *)
Definition onFocusIn (target : navItem) (sb : sidebar) : sidebar :=
  match navIndex target with
  | Some index => {| navItems := navItems sb; currentIndex := Z.of_nat index |}
  | None => sb
  end.

(** [focusItem(index)]: [item.focus()] on an element that takes focus
    raises [focusin] in the sidebar. *)
Definition focusItem (index : Z) (sb : sidebar) : sidebar :=
  match itemAt sb index with
  | Some it => if takesFocus it then onFocusIn it sb else sb
  | None => sb
  end.

Definition setCurrentIndex (index : Z) (sb : sidebar) : sidebar :=
  {| navItems := navItems sb; currentIndex := index |}.

Definition navigateNext (sb : sidebar) : sidebar :=
  if (currentIndex sb <? Z.of_nat (length (navItems sb)) - 1)%Z then
    let sb' := setCurrentIndex (currentIndex sb + 1) sb in
    focusItem (currentIndex sb') sb'
  else sb.

Definition navigatePrev (sb : sidebar) : sidebar :=
  if (currentIndex sb >? 0)%Z then
    let sb' := setCurrentIndex (currentIndex sb - 1) sb in
    focusItem (currentIndex sb') sb'
  else sb.

Definition navigateFirst (sb : sidebar) : sidebar :=
  let sb' := setCurrentIndex 0 sb in
  focusItem (currentIndex sb') sb'.

Definition navigateLast (sb : sidebar) : sidebar :=
  let sb' := setCurrentIndex (Z.of_nat (length (navItems sb)) - 1) sb in
  focusItem (currentIndex sb') sb'.

Inductive navOp := Next | Prev | First | Last.

Definition navigate (sb : sidebar) (op : navOp) : sidebar :=
  match op with
  | Next => navigateNext sb
  | Prev => navigatePrev sb
  | First => navigateFirst sb
  | Last => navigateLast sb
  end.

(** ** The search overlay: opening, closing, and the keys *)

(** The page of the search script together with the overlay: the variable
    [isOpen], the class [open] of the modal, and the scroll lock
    [document.body.style.overflow = 'hidden']. *)
Record overlay := {
  ov_page : page;
  isOpen : bool;
  modalOpen : bool;
  scrollLocked : bool
}.

Definition setResultsPanel (pn : panel) (p : page) : page :=
  {| now := now p; nextTimerId := nextTimerId p; timers := timers p;
     timeout := timeout p; inputValue := inputValue p;
     searchIndex := searchIndex p; resultsPanel := pn;
     evaluated := evaluated p |}.

(** [openSearch]: the box and the panel are emptied by assignment, which
    raises no [input] event. *)
Definition openSearch (ov : overlay) : overlay :=
  {| ov_page := setResultsPanel Blank (setInputValue [] (ov_page ov));
     isOpen := true; modalOpen := true; scrollLocked := true |}.

Definition closeSearch (ov : overlay) : overlay :=
  {| ov_page := ov_page ov;
     isOpen := false; modalOpen := false; scrollLocked := false |}.

(** What a listener reads of a [keydown] event. *)
Record keyEvent := {
  key : jsstring;
  metaKey : bool;
  ctrlKey : bool
}.

(** The [keydown] listener [bindEvents] puts on the document.
    [inputFocused] is what [isInputFocused()] answers when the event
    arrives; the second component is whether [preventDefault] was called. *)
Definition onDocumentKeydown (e : keyEvent) (inputFocused : bool)
    (ov : overlay) : overlay * bool :=
  let '(ov1, prevented1) :=
    if (metaKey e || ctrlKey e) && bool_decide (key e = lit "k")
    then (openSearch ov, true) else (ov, false) in
  let '(ov2, prevented2) :=
    if bool_decide (key e = lit "/") && negb inputFocused
    then (openSearch ov1, true) else (ov1, prevented1) in
  let ov3 :=
    if bool_decide (key e = lit "Escape") && isOpen ov2
    then closeSearch ov2 else ov2 in
  (ov3, prevented2).

(** [items.forEach((item, i) => item.classList.toggle('selected', i === selectedIndex))] *)
Definition reselect (selectedIndex : Z) (items : list resultItem)
    : list resultItem :=
  imap (λ i r, {| href := href r;
                  selected := bool_decide (Z.of_nat i = selectedIndex);
                  dataIndex := dataIndex r;
                  sectionHtml := sectionHtml r;
                  titleHtml := titleHtml r;
                  excerptHtml := excerptHtml r |}) items.

(** What [handleKeyNavigation] did: the panel after it, whether
    [preventDefault] was called, and the item it clicked, if any. *)
Record keyOutcome := {
  panelAfter : panel;
  defaultPrevented : bool;
  clicked : option resultItem
}.

(** [handleKeyNavigation], the [keydown] listener of the search box. *)
Definition handleKeyNavigation (k : jsstring) (pn : panel) : keyOutcome :=
  let untouched :=
    {| panelAfter := pn; defaultPrevented := false; clicked := None |} in
  match pn with
  | Results items =>
      if bool_decide (length items = 0%nat) then untouched
      else
        let selectedItem := List.find selected items in
        let selectedIndex : Z :=
          match selectedItem with
          | Some r => Z.of_nat (dataIndex r)
          | None => (-1)%Z
          end in
        if bool_decide (k = lit "ArrowDown") then
          {| panelAfter :=
               Results (reselect (Z.min (selectedIndex + 1)
                                        (Z.of_nat (length items) - 1)) items);
             defaultPrevented := true; clicked := None |}
        else if bool_decide (k = lit "ArrowUp") then
          {| panelAfter :=
               Results (reselect (Z.max (selectedIndex - 1) 0) items);
             defaultPrevented := true; clicked := None |}
        else if bool_decide (k = lit "Enter") then
          match selectedItem with
          | Some r =>
              {| panelAfter := pn; defaultPrevented := true; clicked := Some r |}
          | None => untouched
          end
        else untouched
  | _ => untouched
  end.

(** ** The sidebar: focus, groups, and the keys

    [focusSidebar] *)
Definition focusSidebar (sb : sidebar) : sidebar :=
  let sb' := if (currentIndex sb <? 0)%Z then setCurrentIndex 0 sb else sb in
  focusItem (currentIndex sb') sb'.

(** A [.nav-group] of the sidebar: whether it has the class [collapsed],
    and the position among the navigable items of the first
    [.nav-group-title] inside it, if it has one.  Groups are taken not to
    nest. *)
Record navGroup := {
  collapsed : bool;
  firstTitle : option nat
}.

(** What the script reads and writes of a navigable item besides the
    fields of [navItem]: its [href] attribute, the index of its closest
    [.nav-group], whether it lies in that group's [.nav-group-links] (which
    the injected style sheet hides while the group is collapsed), its
    [aria-expanded] attribute and the class [nav-link-active]. *)
Record itemPlace := {
  pl_href : option jsstring;
  pl_group : option nat;
  pl_inLinks : bool;
  pl_ariaExpanded : option bool;
  pl_active : bool
}.

Record navDom := {
  nd_sidebar : sidebar;
  nd_places : list itemPlace;
  nd_groups : list navGroup
}.

(** [item.closest('.nav-group')] for the item at a position. *)
Definition groupAt (nd : navDom) (position : nat) : option nat :=
  pl ← nd_places nd !! position;
  g ← pl_group pl;
  _ ← nd_groups nd !! g;
  Some g.

Definition isCollapsed (nd : navDom) (g : nat) : bool :=
  default false (collapsed <$> nd_groups nd !! g).

(** An item is displayed unless it lies in the links of a collapsed group. *)
Definition displayed (nd : navDom) (position : nat) : bool :=
  match nd_places nd !! position with
  | Some pl =>
      negb (pl_inLinks pl && default false (isCollapsed nd <$> pl_group pl))
  | None => true
  end.

(** The sidebar as the cursor operations find it: an item takes focus only
    while it is displayed. *)
Definition liveSidebar (nd : navDom) : sidebar :=
  {| navItems :=
       imap (λ i it, {| isAnchor := isAnchor it; navIndex := navIndex it;
                        takesFocus := takesFocus it && displayed nd i |})
            (navItems (nd_sidebar nd));
     currentIndex := currentIndex (nd_sidebar nd) |}.

Definition setCursor (index : Z) (nd : navDom) : navDom :=
  {| nd_sidebar := setCurrentIndex index (nd_sidebar nd);
     nd_places := nd_places nd; nd_groups := nd_groups nd |}.

(** A cursor operation run on the sidebar; it writes [currentIndex] only. *)
Definition withCursor (f : sidebar → sidebar) (nd : navDom) : navDom :=
  setCursor (currentIndex (f (liveSidebar nd))) nd.

Definition setCollapsed (b : bool) (g : nat) (nd : navDom) : navDom :=
  {| nd_sidebar := nd_sidebar nd; nd_places := nd_places nd;
     nd_groups := alter (λ gr, {| collapsed := b; firstTitle := firstTitle gr |})
                        g (nd_groups nd) |}.

(** [title.setAttribute('aria-expanded', b)] *)
Definition setAriaExpanded (b : bool) (position : nat) (nd : navDom) : navDom :=
  {| nd_sidebar := nd_sidebar nd;
     nd_places := alter (λ pl, {| pl_href := pl_href pl; pl_group := pl_group pl;
                                  pl_inLinks := pl_inLinks pl;
                                  pl_ariaExpanded := Some b;
                                  pl_active := pl_active pl |})
                        position (nd_places nd);
     nd_groups := nd_groups nd |}.

(** [toggleNavGroup(title)], for the title at a position. *)
Definition toggleNavGroup (title : nat) (nd : navDom) : navDom :=
  match groupAt nd title with
  | Some g =>
      let nd' := setCollapsed (negb (isCollapsed nd g)) g nd in
      setAriaExpanded (negb (isCollapsed nd' g)) title nd'
  | None => nd
  end.

Definition expandCurrentGroup (nd : navDom) : navDom :=
  match itemAt (nd_sidebar nd) (currentIndex (nd_sidebar nd)) with
  | None => nd
  | Some _ =>
      match groupAt nd (Z.to_nat (currentIndex (nd_sidebar nd))) with
      | Some g =>
          if isCollapsed nd g then
            let nd' := setCollapsed false g nd in
            match nd_groups nd !! g ≫= firstTitle with
            | Some title => setAriaExpanded true title nd'
            | None => nd'
            end
          else nd
      | None => nd
      end
  end.

(** [collapseCurrentGroup]: the group's first title is focused, and
    [currentIndex = parseInt(title.dataset.navIndex) || 0]. *)
Definition collapseCurrentGroup (nd : navDom) : navDom :=
  match itemAt (nd_sidebar nd) (currentIndex (nd_sidebar nd)) with
  | None => nd
  | Some _ =>
      match groupAt nd (Z.to_nat (currentIndex (nd_sidebar nd))) with
      | Some g =>
          if negb (isCollapsed nd g) then
            let nd' := setCollapsed true g nd in
            match nd_groups nd !! g ≫= firstTitle with
            | Some title =>
                let nd1 := setAriaExpanded false title nd' in
                let nd2 := withCursor (λ sb,
                             match navItems sb !! title with
                             | Some it => if takesFocus it then onFocusIn it sb else sb
                             | None => sb
                             end) nd1 in
                setCursor (Z.of_nat (default 0%nat
                             (navItems (nd_sidebar nd2) !! title ≫= navIndex)))
                          nd2
            | None => nd'
            end
          else nd
      | None => nd
      end
  end.

(** [activateCurrentItem]: a link scrolls the page and pushes a history
    entry, which leaves the sidebar as it is; a group title toggles its
    group. *)
Definition activateCurrentItem (nd : navDom) : navDom :=
  match itemAt (nd_sidebar nd) (currentIndex (nd_sidebar nd)) with
  | None => nd
  | Some it =>
      if isAnchor it then nd
      else toggleNavGroup (Z.to_nat (currentIndex (nd_sidebar nd))) nd
  end.

(** [handleSidebarKeydown]; [targetIsAnchor] is [e.target.tagName === 'A'].
    The second component is whether [preventDefault] was called. *)
Definition handleSidebarKeydown (k : jsstring) (targetIsAnchor : bool)
    (nd : navDom) : navDom * bool :=
  if bool_decide (k = lit "ArrowDown") || bool_decide (k = lit "j") then
    (withCursor navigateNext nd, true)
  else if bool_decide (k = lit "ArrowUp") || bool_decide (k = lit "k") then
    (withCursor navigatePrev nd, true)
  else if bool_decide (k = lit "ArrowRight") || bool_decide (k = lit "l") then
    (expandCurrentGroup nd, true)
  else if bool_decide (k = lit "ArrowLeft") || bool_decide (k = lit "h") then
    (collapseCurrentGroup nd, true)
  else if bool_decide (k = lit "Enter") || bool_decide (k = lit " ") then
    if targetIsAnchor then (nd, false)
    else (activateCurrentItem nd, true)
  else if bool_decide (k = lit "Home") then (withCursor navigateFirst nd, true)
  else if bool_decide (k = lit "End") then (withCursor navigateLast nd, true)
  else (nd, false).

(** The [keydown] listener [bindEvents] puts on every group title. *)
Definition onTitleKeydown (k : jsstring) (title : nat) (nd : navDom)
    : navDom * bool :=
  if bool_decide (k = lit "Enter") || bool_decide (k = lit " ")
  then (toggleNavGroup title nd, true)
  else (nd, false).

(** A [keydown] whose target is the group title at a position: the
    title's own listener runs, then, the event bubbling, the sidebar's. *)
Definition keydownOnTitle (k : jsstring) (title : nat) (nd : navDom)
    : navDom * bool :=
  let '(nd1, prevented1) := onTitleKeydown k title nd in
  let targetIsAnchor :=
    default false (isAnchor <$> navItems (nd_sidebar nd) !! title) in
  let '(nd2, prevented2) := handleSidebarKeydown k targetIsAnchor nd1 in
  (nd2, prevented1 || prevented2).

(** [highlightNavItem(sectionId)]: every [nav-link-active] is removed, the
    first link of the sidebar whose [href] is ["#" + sectionId] gets the
    class, and its group, if collapsed, loses the class [collapsed]. *)
Definition clearActive (nd : navDom) : navDom :=
  {| nd_sidebar := nd_sidebar nd;
     nd_places := (λ pl, {| pl_href := pl_href pl; pl_group := pl_group pl;
                            pl_inLinks := pl_inLinks pl;
                            pl_ariaExpanded := pl_ariaExpanded pl;
                            pl_active := false |}) <$> nd_places nd;
     nd_groups := nd_groups nd |}.

Definition setActive (position : nat) (nd : navDom) : navDom :=
  {| nd_sidebar := nd_sidebar nd;
     nd_places := alter (λ pl, {| pl_href := pl_href pl; pl_group := pl_group pl;
                                  pl_inLinks := pl_inLinks pl;
                                  pl_ariaExpanded := pl_ariaExpanded pl;
                                  pl_active := true |})
                        position (nd_places nd);
     nd_groups := nd_groups nd |}.

(** The position of the first link with the given [href]. *)
Definition findLink (nd : navDom) (target : jsstring) : option nat :=
  fst <$> List.find
    (λ e : nat * itemPlace,
       default false (isAnchor <$> navItems (nd_sidebar nd) !! e.1)
       && bool_decide (pl_href e.2 = Some target))
    (imap pair (nd_places nd)).

Definition highlightNavItem (sectionId : jsstring) (nd : navDom) : navDom :=
  let nd' := clearActive nd in
  match findLink nd' (lit "#" ++ sectionId) with
  | Some link =>
      let nd1 := setActive link nd' in
      match groupAt nd1 link with
      | Some g => if isCollapsed nd1 g then setCollapsed false g nd1 else nd1
      | None => nd1
      end
  | None => nd'
  end.

(** The callback of the scroll spy's [IntersectionObserver]: each entry
    that intersects highlights the link of its target's [id]. *)
Definition onIntersections (entries : list (bool * jsstring)) (nd : navDom)
    : navDom :=
  fold_left (λ nd (e : bool * jsstring),
               if e.1 then highlightNavItem e.2 nd else nd) entries nd.

(** ** Definitions that follow the specification's words *)

(** [q] occurs in [s] as a contiguous run of code units. *)
Definition Contains (q s : jsstring) : Prop :=
  ∃ before after, s = before ++ q ++ after.

(** A record satisfies the containment of the query engine's contract. *)
Definition RecordContains `{Host} (q : jsstring) (it : item) : Prop :=
  Contains q (toLowerCase (title it)) ∨ Contains q (toLowerCase (content it)).

(** A string of white space only (the empty string is one). *)
Definition Blankish (s : jsstring) : Prop := Forall (λ c, isWhiteSpace c = true) s.

(** A content container yields a record when its title or its content is
    not empty. *)
Definition yieldsRecord (s : docSection) : bool :=
  truthy (match sec_heading s with Some h => trim h | None => [] end)
  || truthy (substring 0 (Some 500%Z) (trim (gatherContent (sec_texts s)))).

(** The in-page anchor a sidebar link points to, if it points to one. *)
Definition linkTarget (link : navLink) : option jsstring :=
  match link_href link with
  | Some href =>
      if truthy href && startsWith href (lit "#")
      then Some (substring 1 None href) else None
  | None => None
  end.

(** The records of the content containers alone, in document order. *)
Definition sectionRecords (d : document) : list item :=
  flat_map (indexSection d []) (doc_sections d).

(** [m] is the query [q] up to case: code unit by code unit, the two have
    the same case folding. *)
Definition SameUpToCase `{Host} (q m : jsstring) : Prop :=
  Forall2 (λ a b, canonicalize a = canonicalize b) q m.

(** An occurrence of [q], up to case, starts [s]. *)
Definition OccursAtHead `{Host} (q s : jsstring) : Prop :=
  ∃ m rest, s = m ++ rest ∧ SameUpToCase q m.

(** [out] is [s] with every occurrence of [q] marked, the occurrences being
    looked for from left to right, each search resuming after the previous
    occurrence. *)
Inductive MarkedAll `{Host} (q : jsstring) : jsstring → jsstring → Prop :=
  | marked_end : MarkedAll q [] []
  | marked_hit m rest out :
      SameUpToCase q m → MarkedAll q rest out →
      MarkedAll q (m ++ rest) (markUp m ++ out)
  | marked_miss c s out :
      ¬ OccursAtHead q (c :: s) → MarkedAll q s out →
      MarkedAll q (c :: s) (c :: out).

(** [s] with the first occurrence of [q] marked, and nothing after it. *)
Fixpoint markFirstOnly `{Host} (q s : jsstring) : jsstring :=
  match s with
  | [] => []
  | c :: s' =>
      if matchAt q s
      then markUp (take (length q) s) ++ drop (length q) s
      else c :: markFirstOnly q s'
  end.

(** At most one timer is pending, and it is the one [debounce] remembers. *)
Definition Settled (p : page) : Prop :=
  timers p = [] ∨ ∃ t, timers p = [t] ∧ timeout p = Some (timer_id t).

(** A burst of keystrokes: each input is followed by a pause. *)
Definition burstEvents (burst : list (jsstring * nat)) : list event :=
  flat_map (λ e, [Input e.1; Elapse e.2]) burst.

(** [s] with every [<mark>] and [</mark>] tag deleted; [skip] counts the
    code units of a tag still to be dropped. *)
Fixpoint eraseTags (skip : nat) (s : jsstring) : jsstring :=
  match s with
  | [] => []
  | c :: s' =>
      match skip with
      | S k => eraseTags k s'
      | O =>
          if startsWith s (lit "<mark>") then eraseTags 5 s'
          else if startsWith s (lit "</mark>") then eraseTags 6 s'
          else c :: eraseTags 0 s'
      end
  end.

(** The items of a results panel are numbered by position, and the one
    at [pos], and no other, is selected. *)
Definition SelectedAt (pos : nat) (items : list resultItem) : Prop :=
  (pos < length items)%nat
  ∧ ∀ i r, items !! i = Some r →
      dataIndex r = i ∧ selected r = bool_decide (i = pos).


(** What can happen to the sidebar: a key with the sidebar's listener
    alone, a key on a group title, a click on a group title, the [s]
    shortcut (or [window.mdashNav.focusSidebar]), a report of the scroll
    spy. *)
Inductive sidebarEvent :=
  | SidebarKey (k : jsstring) (targetIsAnchor : bool)
  | TitleKey (k : jsstring) (title : nat)
  | TitleClick (title : nat)
  | FocusSidebar
  | Intersections (entries : list (bool * jsstring)).

Definition sidebarStep (nd : navDom) (ev : sidebarEvent) : navDom :=
  match ev with
  | SidebarKey k targetIsAnchor => (handleSidebarKeydown k targetIsAnchor nd).1
  | TitleKey k title => (keydownOnTitle k title nd).1
  | TitleClick title => toggleNavGroup title nd
  | FocusSidebar => withCursor focusSidebar nd
  | Intersections entries => onIntersections entries nd
  end.

(** At most one navigable item carries the class [nav-link-active]. *)
Definition AtMostOneActive (nd : navDom) : Prop :=
  ∀ i j pli plj,
    nd_places nd !! i = Some pli → nd_places nd !! j = Some plj →
    pl_active pli = true → pl_active plj = true → i = j.

(** The event is a keystroke in the search box. *)
Definition isInput (e : event) : bool :=
  match e with Input _ => true | Elapse _ => false end.

(** The overlay's three flags agree. *)
Definition FlagsAgree (ov : overlay) : Prop :=
  modalOpen ov = isOpen ov ∧ scrollLocked ov = isOpen ov.

(** What can happen to the overlay: a key on the document, a click on the
    search trigger, a click on the backdrop. *)
Inductive overlayOp :=
  | DocumentKey (e : keyEvent) (inputFocused : bool)
  | TriggerClick
  | BackdropClick.

Definition overlayStep (ov : overlay) (op : overlayOp) : overlay :=
  match op with
  | DocumentKey e inputFocused => (onDocumentKeydown e inputFocused ov).1
  | TriggerClick => openSearch ov
  | BackdropClick => closeSearch ov
  end.

(** ** Pages used as concrete inputs *)

(** Two containers and a sidebar link to an anchor that has no container. *)
Definition introSection : docSection :=
  {| sec_id := Some (lit "intro"); sec_heading := Some (lit "Introduction");
     sec_texts := [lit "Welcome to mdash"]; sec_node := 1 |}.

Definition installSection : docSection :=
  {| sec_id := Some (lit "install"); sec_heading := Some (lit "Installation");
     sec_texts := [lit "Run the installer"]; sec_node := 2 |}.

Definition faqLink : navLink :=
  {| link_href := Some (lit "#faq"); link_text := lit "FAQ";
     link_group := None |}.

Definition guidePage : document :=
  {| doc_sections := [introSection; installSection];
     doc_navLinks := [faqLink];
     doc_ids := [(lit "intro", 1%nat); (lit "install", 2%nat)] |}.

(** Two containers that carry no [id] attribute. *)
Definition unnamedPage : document :=
  {| doc_sections :=
       [ {| sec_id := None; sec_heading := Some (lit "Usage");
            sec_texts := []; sec_node := 1 |};
         {| sec_id := None; sec_heading := Some (lit "Notes");
            sec_texts := []; sec_node := 2 |} ];
     doc_navLinks := [];
     doc_ids := [] |}.



(** The page of the search script once [init] has run: no timer, an empty
    search box, an empty results panel. *)
Definition loadedPage (d : document) : page :=
  {| now := 0; nextTimerId := 1; timers := []; timeout := None;
     inputValue := []; searchIndex := init d; resultsPanel := Blank;
     evaluated := [] |}.

(** A sidebar of three links under one group title, focus on the last. *)
Definition smallSidebar : sidebar :=
  {| navItems := collectNavItems
       [ {| isAnchor := false; navIndex := None; takesFocus := true |};
         {| isAnchor := true; navIndex := None; takesFocus := true |};
         {| isAnchor := true; navIndex := None; takesFocus := false |};
         {| isAnchor := true; navIndex := None; takesFocus := true |} ];
     currentIndex := 3 |}.

(** A closed overlay over the loaded page. *)
Definition closedOverlay (d : document) : overlay :=
  {| ov_page := loadedPage d; isOpen := false; modalOpen := false;
     scrollLocked := false |}.

(** A results panel of two items, the first selected. *)
Definition twoItems : list resultItem :=
  [ {| href := lit "#intro"; selected := true; dataIndex := 0;
       sectionHtml := None; titleHtml := lit "Introduction";
       excerptHtml := None |};
    {| href := lit "#install"; selected := false; dataIndex := 1;
       sectionHtml := None; titleHtml := lit "Installation";
       excerptHtml := None |} ].

(** The sidebar of three links under one group title, with its group:
    the title is item 0, the links lie in the group's links. *)
Definition groupedLinks : list navItem :=
  [ {| isAnchor := false; navIndex := None; takesFocus := true |};
    {| isAnchor := true; navIndex := None; takesFocus := true |};
    {| isAnchor := true; navIndex := None; takesFocus := true |};
    {| isAnchor := true; navIndex := None; takesFocus := true |} ].

Definition groupedSidebar : navDom :=
  {| nd_sidebar := {| navItems := collectNavItems groupedLinks;
                      currentIndex := 0 |};
     nd_places :=
       [ {| pl_href := None; pl_group := Some 0%nat; pl_inLinks := false;
            pl_ariaExpanded := None; pl_active := false |};
         {| pl_href := Some (lit "#intro"); pl_group := Some 0%nat;
            pl_inLinks := true; pl_ariaExpanded := None; pl_active := false |};
         {| pl_href := Some (lit "#install"); pl_group := Some 0%nat;
            pl_inLinks := true; pl_ariaExpanded := None; pl_active := true |};
         {| pl_href := Some (lit "#faq"); pl_group := Some 0%nat;
            pl_inLinks := true; pl_ariaExpanded := None; pl_active := false |} ];
     nd_groups := [ {| collapsed := true; firstTitle := Some 0%nat |} ] |}.

(** * Properties *)

(** ** Strings *)

Lemma startsWith_spec s p : startsWith s p = true ↔ ∃ after, s = p ++ after.
Proof.
  revert s. induction p as [|a p IH]; intros s; simpl.
  - split; [intros _; by exists s | done].
  - destruct s as [|b s].
    + split; [done | intros [? ?]; discriminate].
    + rewrite andb_true_iff, N.eqb_eq, IH. split.
      * intros [-> [after ->]]. eauto.
      * intros [after Heq]. injection Heq as -> ->. eauto.
Qed.

Lemma includes_spec s q : includes s q = true ↔ Contains q s.
Proof.
  unfold Contains. induction s as [|c s IH]; simpl.
  - rewrite orb_false_r, startsWith_spec. split.
    + intros [after ->]. by exists [], after.
    + intros [before [after Heq]]. symmetry in Heq.
      apply app_eq_nil in Heq as [-> Heq]. eauto.
  - rewrite orb_true_iff, startsWith_spec, IH. split.
    + intros [[after ->] | [before [after ->]]].
      * by exists [], after.
      * by exists (c :: before), after.
    + intros [[|b before] [after Heq]]; simpl in Heq.
      * left. eauto.
      * right. injection Heq as _ ->. eauto.
Qed.

Lemma clampIndex_of_nat len n : clampIndex len (Z.of_nat n) = Nat.min n len.
Proof. unfold clampIndex. lia. Qed.

Lemma substring_prefix (n : nat) s :
  substring 0 (Some (Z.of_nat n)) s = take n s.
Proof.
  unfold substring. rewrite clampIndex_of_nat.
  replace (clampIndex (length s) 0) with 0%nat by (unfold clampIndex; lia).
  rewrite Nat.max_0_l, Nat.min_0_l, Nat.sub_0_r. simpl.
  destruct (decide (n ≤ length s)%nat).
  - by rewrite Nat.min_l.
  - rewrite Nat.min_r by lia. rewrite (take_ge s n) by lia. by apply take_ge.
Qed.

Lemma substring_from_1 s : substring 1 None s = drop 1 s.
Proof.
  unfold substring. destruct s as [|c s]; [done |].
  replace (clampIndex (length (c :: s)) 1) with 1%nat
    by (unfold clampIndex; simpl length; lia).
  rewrite Nat.min_l, Nat.max_r by (simpl; lia).
  apply take_ge. rewrite length_drop. simpl. lia.
Qed.

Lemma slice_prefix {A} (n : nat) (l : list A) :
  slice 0 (Z.of_nat n) l = take n l.
Proof.
  unfold slice, relIndex. simpl.
  destruct (Z.ltb_spec (Z.of_nat n) 0); [lia |].
  replace (Z.to_nat (0 `min` Z.of_nat (length l))) with 0%nat by lia.
  rewrite Nat.sub_0_r. simpl. destruct (decide (n ≤ length l)%nat).
  - f_equal. lia.
  - rewrite (take_ge l n) by lia. apply take_ge. lia.
Qed.

Lemma trimStart_blank s : Blankish s → trimStart s = [].
Proof. induction 1 as [|c s Hc _ IH]; simpl; [done | by rewrite Hc]. Qed.

Lemma trim_blank s : Blankish s → trim s = [].
Proof. intros Hs. unfold trim, trimEnd. by rewrite (trimStart_blank s Hs). Qed.

Lemma truthy_true s : truthy s = true ↔ s ≠ [].
Proof. by destruct s. Qed.


(** ** The pattern [highlightMatch] compiles *)

Lemma syntax_chars_escaped c : isSyntaxChar c = inEscapeClass c.
Proof.
  unfold isSyntaxChar, inEscapeClass. apply bool_decide_ext.
  unfold syntaxChars, escapeClass, lit; simpl.
  rewrite !elem_of_cons, !elem_of_nil. tauto.
Qed.

Lemma outside_class_plain c :
  inEscapeClass c = false →
  (c =? 92) = false ∧ (c =? 40) = false ∧ (c =? 41) = false.
Proof.
  unfold inEscapeClass. rewrite bool_decide_eq_false.
  unfold escapeClass, lit; simpl.
  rewrite !elem_of_cons, !elem_of_nil, !N.eqb_neq. tauto.
Qed.

Lemma tokenize_escapeRegex q rest ts :
  tokenize rest = Some ts →
  tokenize (escapeRegex q ++ rest) = Some (List.map TChar q ++ ts).
Proof.
  intros Hrest. induction q as [|c q IH]; [done |].
  unfold escapeRegex in *. simpl flat_map.
  destruct (inEscapeClass c) eqn:Hc.
  - simpl. rewrite syntax_chars_escaped, Hc, IH. done.
  - destruct (outside_class_plain c Hc) as (H92 & H40 & H41).
    simpl. rewrite H92, H40, H41, syntax_chars_escaped, Hc, IH. done.
Qed.

Lemma groupBody_chars q : groupBody (List.map TChar q ++ [TClose]) = Some q.
Proof. induction q as [|c q IH]; simpl; [done | by rewrite IH]. Qed.

Lemma compileGroup_escaped q :
  compileGroup (lit "(" ++ escapeRegex q ++ lit ")") = Some q.
Proof.
  unfold compileGroup. change (lit "(") with [40]. change (lit ")") with [41].
  simpl. rewrite (tokenize_escapeRegex q [41] [TClose]) by done.
  simpl. apply groupBody_chars.
Qed.

Section HostProperties.
Context `{Host}.

Lemma highlightMatch_value text query :
  highlightMatch text query =
  Some (if truthy query then replaceAll query 0 (escapeHtml text)
        else escapeHtml text).
Proof.
  unfold highlightMatch. destruct (truthy query); [| done].
  cbn [negb]. by rewrite compileGroup_escaped.
Qed.

Lemma renderItem_total query index it : is_Some (renderItem query index it).
Proof.
  unfold renderItem. rewrite !highlightMatch_value. simpl.
  destruct (truthy (content it)); simpl; eauto.
Qed.

Lemma renderResults_total results query : is_Some (renderResults results query).
Proof.
  unfold renderResults. case_bool_decide; [eauto |].
  apply fmap_is_Some, mapM_is_Some, Forall_forall.
  intros [index it] _. apply renderItem_total.
Qed.

Lemma handleSearch_total value idx : is_Some (handleSearch value idx).
Proof.
  unfold handleSearch. destruct (negb _); [eauto | apply renderResults_total].
Qed.

Lemma matchesQuery_spec q it : matchesQuery q it = true ↔ RecordContains q it.
Proof.
  unfold matchesQuery, RecordContains.
  by rewrite orb_true_iff, !includes_spec.
Qed.

End HostProperties.

(** ** The index builder *)

Lemma indexSection_app d idx s : indexSection d idx s = idx ++ indexSection d [] s.
Proof.
  unfold indexSection. destruct (_ || _); [done | by rewrite app_nil_r].
Qed.

Lemma sections_loop d secs idx :
  fold_left (indexSection d) secs idx = idx ++ flat_map (indexSection d []) secs.
Proof.
  revert idx. induction secs as [|s secs IH]; intros idx; simpl.
  - by rewrite app_nil_r.
  - rewrite IH, (indexSection_app d idx s). by rewrite <-app_assoc.
Qed.

Lemma orElse_empty s : orElse s [] = s.
Proof. by destruct s. Qed.

Lemma indexSection_ids d s :
  id <$> indexSection d [] s = if yieldsRecord s then [elementId s] else [].
Proof.
  unfold indexSection, yieldsRecord. destruct (_ || _); [| done].
  simpl. by rewrite orElse_empty.
Qed.

Lemma sectionRecords_ids d :
  id <$> sectionRecords d = elementId <$> List.filter yieldsRecord (doc_sections d).
Proof.
  unfold sectionRecords. induction (doc_sections d) as [|s secs IH]; [done |].
  simpl. rewrite fmap_app, IH, indexSection_ids.
  by destruct (yieldsRecord s).
Qed.

Lemma idExists_spec idx target : idExists idx target = true ↔ target ∈ id <$> idx.
Proof.
  unfold idExists. rewrite existsb_exists, list_elem_of_fmap. split.
  - intros (it & Hin & Heq). apply bool_decide_eq_true in Heq.
    exists it. by rewrite list_elem_of_In.
  - intros (it & -> & Hin). exists it. rewrite <-list_elem_of_In.
    split; [done | by apply bool_decide_eq_true].
Qed.

Lemma indexLink_cases d idx link :
  indexLink d idx link = idx
  ∨ ∃ target it, indexLink d idx link = idx ++ [it]
      ∧ linkTarget link = Some target ∧ idExists idx target = false
      ∧ id it = target ∧ title it = trim (link_text link) ∧ content it = [].
Proof.
  unfold indexLink, linkTarget. destruct (link_href link) as [href|]; [| by left].
  destruct (_ && _); [| by left].
  destruct (idExists idx _) eqn:Hex; [by left |]. right. simpl.
  eexists _, _. split; [reflexivity |]. by repeat split.
Qed.

Lemma indexLink_known d idx link target :
  linkTarget link = Some target → idExists idx target = true →
  indexLink d idx link = idx.
Proof.
  unfold indexLink, linkTarget. destruct (link_href link) as [href|]; [| done].
  destruct (_ && _); [| done]. intros [= ->] ->. done.
Qed.

Lemma indexLink_no_target d idx link :
  linkTarget link = None → indexLink d idx link = idx.
Proof.
  unfold indexLink, linkTarget. destruct (link_href link) as [href|]; [| done].
  by destruct (_ && _).
Qed.

Lemma indexLink_NoDup d idx link :
  NoDup (id <$> idx) → NoDup (id <$> indexLink d idx link).
Proof.
  intros Hnd.
  destruct (indexLink_cases d idx link)
    as [-> | (target & it & -> & _ & Hex & Hid & _ & _)]; [done |].
  rewrite fmap_app. apply NoDup_app. split; [done |]. split.
  - intros x Hx. simpl. rewrite list_elem_of_singleton. intros ->.
    rewrite Hid in Hx. apply idExists_spec in Hx. congruence.
  - simpl. apply NoDup_singleton.
Qed.

Lemma links_loop_NoDup d links idx :
  NoDup (id <$> idx) → NoDup (id <$> fold_left (indexLink d) links idx).
Proof.
  revert idx. induction links as [|l links IH]; intros idx Hnd; [done |].
  simpl. by apply IH, indexLink_NoDup.
Qed.

Lemma indexLink_grows d idx link x :
  idExists idx x = true → idExists (indexLink d idx link) x = true.
Proof.
  intros Hx.
  destruct (indexLink_cases d idx link) as [-> | (? & it & -> & _)];
    [done |].
  unfold idExists in *. by rewrite existsb_app, Hx.
Qed.

Lemma links_loop_grows d links idx x :
  idExists idx x = true → idExists (fold_left (indexLink d) links idx) x = true.
Proof.
  revert idx. induction links as [|l links IH]; intros idx Hx; [done |].
  simpl. by apply IH, indexLink_grows.
Qed.

Lemma indexLink_target_known d idx link target :
  linkTarget link = Some target →
  idExists (indexLink d idx link) target = true.
Proof.
  intros Ht. destruct (idExists idx target) eqn:Hex.
  - by rewrite (indexLink_known d idx link target).
  - unfold indexLink. unfold linkTarget in Ht.
    destruct (link_href link) as [href|]; [| done].
    destruct (_ && _); [| done]. injection Ht as Ht. rewrite Ht, Hex. simpl.
    unfold idExists. rewrite existsb_app. simpl.
    rewrite bool_decide_eq_true_2 by done. by rewrite orb_true_r.
Qed.

(** Once every link's target is in the index, the loop over the links adds
    nothing. *)
Lemma links_loop_fixed d links idx :
  (∀ link target, link ∈ links → linkTarget link = Some target →
                  idExists idx target = true) →
  fold_left (indexLink d) links idx = idx.
Proof.
  induction links as [|l links IH]; intros Hall; [done |]. simpl.
  assert (indexLink d idx l = idx) as ->.
  { destruct (linkTarget l) as [target|] eqn:Ht.
    - apply (indexLink_known d idx l target); [done |].
      apply (Hall l); [left | done].
    - by apply indexLink_no_target. }
  apply IH. intros link target Hin. apply Hall. by right.
Qed.

(** After the loop over the links, every link's target is in the index. *)
Lemma links_loop_complete d links idx link target :
  link ∈ links → linkTarget link = Some target →
  idExists (fold_left (indexLink d) links idx) target = true.
Proof.
  revert idx. induction links as [|l links IH]; intros idx Hin Ht.
  - by apply elem_of_nil in Hin.
  - simpl. apply elem_of_cons in Hin as [-> | Hin].
    + by apply links_loop_grows, indexLink_target_known.
    + by apply IH.
Qed.

Lemma idExists_app idx more x :
  idExists idx x = true → idExists (idx ++ more) x = true.
Proof. unfold idExists. rewrite existsb_app. by intros ->. Qed.

Lemma buildSearchIndex_after_init d :
  buildSearchIndex d (init d) = init d ++ sectionRecords d.
Proof.
  unfold buildSearchIndex at 1. rewrite sections_loop.
  fold (sectionRecords d). apply links_loop_fixed.
  intros link target Hin Ht. apply idExists_app.
  unfold init, buildSearchIndex. by apply links_loop_complete with link.
Qed.

Lemma init_ids_NoDup d :
  NoDup (elementId <$> List.filter yieldsRecord (doc_sections d)) →
  NoDup (id <$> init d).
Proof.
  intros Hnd. unfold init, buildSearchIndex. apply links_loop_NoDup.
  rewrite sections_loop. simpl. fold (sectionRecords d).
  by rewrite sectionRecords_ids.
Qed.

(** ** The query engine *)

Section QueryEngine.
Context `{Host}.

Lemma searchResultsFor_take q idx :
  searchResultsFor q idx = take 10 (List.filter (matchesQuery q) idx).
Proof. unfold searchResultsFor. apply (slice_prefix 10). Qed.



(** The record at position [i] of the index is the match number
    [length (filter ... (take i idx))] of the scan. *)
Lemma filter_lookup_rank {A} (f : A → bool) (l : list A) i x :
  l !! i = Some x → f x = true →
  List.filter f l !! length (List.filter f (take i l)) = Some x.
Proof.
  revert i. induction l as [|y l IH]; intros i Hi Hx; [done |].
  destruct i as [|i]; simpl in *.
  - injection Hi as ->. by rewrite Hx.
  - destruct (f y); simpl; by apply IH.
Qed.

Lemma handleSearch_query value idx :
  toLowerCase (trim value) ≠ [] →
  handleSearch value idx =
  renderResults (searchResultsFor (toLowerCase (trim value)) idx)
                (toLowerCase (trim value)).
Proof.
  intros Hq. unfold handleSearch.
  by rewrite (proj2 (truthy_true _) Hq).
Qed.

(** C1: for a query that is not empty after trimming and lowercasing,
    [handleSearch] renders the records whose lowercased title or lowercased
    content contains the query, cut to the first ten in index order: every
    returned record satisfies the containment, and a record that satisfies
    it is returned, at the place its rank among the matches gives it, unless
    ten earlier records of the index matched already. *)
Theorem query_returns_first_ten_containing (value : jsstring) (idx : list item) :
  let q := toLowerCase (trim value) in
  q ≠ [] →
  let results := searchResultsFor q idx in
  handleSearch value idx = renderResults results q
  ∧ (∀ it, matchesQuery q it = true ↔ RecordContains q it)
  ∧ results = take 10 (List.filter (matchesQuery q) idx)
  ∧ (∀ it, it ∈ results → RecordContains q it)
  ∧ (∀ i it, idx !! i = Some it → RecordContains q it →
       let earlier := length (List.filter (matchesQuery q) (take i idx)) in
       (earlier < 10 → results !! earlier = Some it)%nat
       ∧ ((10 ≤ earlier)%nat →
          results = take 10 (List.filter (matchesQuery q) (take i idx)))).
Proof.
  intros q Hq results. split; [by apply handleSearch_query |].
  split; [apply matchesQuery_spec |].
  split; [apply searchResultsFor_take |].
  subst results. rewrite searchResultsFor_take. split.
  - intros it Hin. apply elem_of_take in Hin as (i & Hin & _).
    apply list_elem_of_lookup_2, list_elem_of_In, filter_In in Hin as [_ Hm].
    by apply matchesQuery_spec.
  - intros i it Hi Hc earlier. apply matchesQuery_spec in Hc. split.
    + intros Hlt. rewrite lookup_take_lt by done.
      by apply filter_lookup_rank.
    + intros Hge. rewrite <-(take_drop i idx) at 1.
      rewrite List.filter_app, take_app_le by done. done.
Qed.


(** C6: for an input that is empty or white space only, [handleSearch]
    clears the results panel, whatever the index: it shows neither records
    nor the no-results block; and no input makes [handleSearch] throw. *)
Theorem blank_input_clears_panel (value : jsstring) (idx : list item) :
  toLowerCase [] = [] →
  Blankish value →
  handleSearch value idx = Some Blank
  ∧ (∀ items, handleSearch value idx ≠ Some (Results items))
  ∧ (∀ queryHtml, handleSearch value idx ≠ Some (NoResults queryHtml))
  ∧ (∀ other, is_Some (handleSearch other idx)).
Proof.
  intros Hlow Hblank.
  assert (handleSearch value idx = Some Blank) as Hclear.
  { unfold handleSearch. by rewrite trim_blank, Hlow. }
  rewrite Hclear. repeat split; try done.
  intros other. apply handleSearch_total.
Qed.

(** C7: a query is taken as literal text, whatever characters it has: a
    record matches exactly when the query's code units occur as a run in the
    lowercased title or content; the pattern [highlightMatch] compiles from
    the escaped query is the group of the query's own code units; and
    neither the highlighting nor the search throws. *)
Theorem query_is_literal_text (q : jsstring) :
  (∀ it, matchesQuery q it = true ↔ RecordContains q it)
  ∧ compileGroup (lit "(" ++ escapeRegex q ++ lit ")") = Some q
  ∧ (∀ text, highlightMatch text q =
       Some (if truthy q then replaceAll q 0 (escapeHtml text)
             else escapeHtml text))
  ∧ (∀ text, is_Some (highlightMatch text q))
  ∧ (∀ value idx, is_Some (handleSearch value idx)).
Proof.
  split; [apply matchesQuery_spec |].
  split; [apply compileGroup_escaped |].
  split; [intros text; apply highlightMatch_value |].
  split; [intros text; rewrite highlightMatch_value; eauto |].
  apply handleSearch_total.
Qed.

End QueryEngine.

(** ** Content of the records, and the excerpt *)



Lemma truncate_short text n : (length text ≤ n)%nat → truncate text n = text.
Proof.
  intros Hle. unfold truncate.
  by rewrite (proj2 (Nat.leb_le _ _) Hle).
Qed.

Lemma truncate_long text n :
  (n < length text)%nat → truncate text n = take n text ++ lit "...".
Proof.
  intros Hlt. unfold truncate.
  rewrite (proj2 (Nat.leb_gt _ _) Hlt). by rewrite substring_prefix.
Qed.

Section Content.
Context `{Host}.


End Content.

(** ** Building the index twice, and the ids of the records *)

(** C2 (the code does not meet it): a second build does not discard the
    index it finds.  [reindex] after [init] keeps every record and appends
    a second copy of the record of every content container; on the guide
    page the three records become five. *)
Theorem reindex_appends_to_index :
  (∀ d, reindex d (init d) = init d ++ sectionRecords d)
  ∧ id <$> init guidePage = [lit "intro"; lit "install"; lit "faq"]
  ∧ id <$> reindex guidePage (init guidePage) =
      [lit "intro"; lit "install"; lit "faq"; lit "intro"; lit "install"]
  ∧ reindex guidePage (init guidePage) ≠ init guidePage.
Proof.
  split; [apply buildSearchIndex_after_init |].
  split; [by vm_compute |]. split; [by vm_compute |].
  intros Heq. apply (f_equal length) in Heq. vm_compute in Heq. discriminate.
Qed.

(** C3, as stated, fails: two containers without an [id] attribute give
    two records with the empty id. *)
Lemma unnamed_containers_share_id : ¬ NoDup (id <$> init unnamedPage).
Proof.
  change (id <$> init unnamedPage) with ([[]; []] : list jsstring).
  intros Hnd. apply NoDup_cons in Hnd as [Hnin _]. apply Hnin. left.
Qed.

(** C3 (amended): after the initial build the ids of the records are
    pairwise distinct provided the content containers that yield a record
    have pairwise distinct ids (an absent id being the empty string); and a
    sidebar link whose target id is already in the index adds nothing, so
    the first record of an id stays the only one. *)
Theorem ids_distinct_when_containers_distinct (d : document) :
  NoDup (elementId <$> List.filter yieldsRecord (doc_sections d)) →
  NoDup (id <$> init d)
  ∧ (∀ idx link target,
       linkTarget link = Some target → target ∈ id <$> idx →
       indexLink d idx link = idx).
Proof.
  intros Hnd. split; [by apply init_ids_NoDup |].
  intros idx link target Ht Hin. apply (indexLink_known d idx link target Ht).
  by apply idExists_spec.
Qed.

(** ** Highlighting *)

Section Highlighting.
Context `{Host}.

Lemma matchAt_spec q s : matchAt q s = true ↔ OccursAtHead q s.
Proof.
  unfold OccursAtHead, SameUpToCase. revert s.
  induction q as [|a q IH]; intros s; simpl.
  - split; [intros _; exists [], s; by split | done].
  - destruct s as [|c s].
    + split; [done |]. intros (m & rest & Heq & HF).
      inversion HF; subst. discriminate.
    + rewrite andb_true_iff, N.eqb_eq, IH. split.
      * intros [Hc (m & rest & -> & HF)]. exists (c :: m), rest.
        split; [done | by constructor].
      * intros (m & rest & Heq & HF). inversion HF as [|? b ? m' Hb HF']; subst.
        injection Heq as <- ->. split; [done | by exists m', rest].
Qed.

Lemma matchAt_take q s : matchAt q s = true → SameUpToCase q (take (length q) s).
Proof.
  unfold SameUpToCase. revert s. induction q as [|a q IH]; intros s; simpl.
  - constructor.
  - destruct s as [|c s]; [done |].
    rewrite andb_true_iff, N.eqb_eq. intros [Hc Hm]. simpl.
    constructor; [done | by apply IH].
Qed.

Lemma SameUpToCase_length q m : SameUpToCase q m → length m = length q.
Proof. intros HF. symmetry. by eapply Forall2_length. Qed.

Lemma replaceAll_skip pat k s :
  pat ≠ [] → (k ≤ length s)%nat →
  replaceAll pat k s = replaceAll pat 0 (drop k s).
Proof.
  intros Hpat. revert k. induction s as [|c s IH]; intros k Hk.
  - by destruct k.
  - destruct k as [|k]; [done |]. simpl. apply IH. simpl in Hk. lia.
Qed.

Lemma replaceAll_hit pat s :
  pat ≠ [] → matchAt pat s = true →
  replaceAll pat 0 s =
  markUp (take (length pat) s) ++ replaceAll pat 0 (drop (length pat) s).
Proof.
  intros Hpat Hm. pose proof (matchAt_take pat s Hm) as Hlen.
  apply SameUpToCase_length in Hlen. rewrite length_take in Hlen.
  destruct s as [|c s]; [by destruct pat |].
  simpl replaceAll. rewrite Hm.
  destruct pat as [|p pat]; [done |]. simpl length in *.
  cbn [length]. f_equal. rewrite replaceAll_skip by (done || lia). done.
Qed.

Lemma replaceAll_MarkedAll q s : q ≠ [] → MarkedAll q s (replaceAll q 0 s).
Proof.
  intros Hq. remember (length s) as n eqn:Hn. revert s Hn.
  induction n as [n IH] using lt_wf_ind. intros s ->.
  destruct s as [|c s].
  - simpl. destruct q; [done |]. constructor.
  - destruct (matchAt q (c :: s)) eqn:Hm.
    + rewrite replaceAll_hit by done.
      pose proof (matchAt_take q _ Hm) as Hsame.
      rewrite <-(take_drop (length q) (c :: s)) at 1.
      constructor; [done |].
      apply (IH (length (drop (length q) (c :: s)))); [| done].
      rewrite length_drop. destruct q; [done |]. simpl. lia.
    + simpl replaceAll. rewrite Hm. constructor.
      * rewrite <-matchAt_spec. congruence.
      * by apply (IH (length s)); [simpl; lia |].
Qed.

Lemma MarkedAll_unique q s out1 out2 :
  q ≠ [] → MarkedAll q s out1 → MarkedAll q s out2 → out1 = out2.
Proof.
  intros Hq H1. revert out2.
  induction H1 as [| m rest out Hm H1 IH | c s out Hno H1 IH]; intros out2 H2.
  - inversion H2 as [| m' rest' out' Hm' H2' Heq |]; [done |].
    apply app_eq_nil in Heq as [-> ->].
    apply SameUpToCase_length in Hm'. destruct q; [done | discriminate].
  - remember (m ++ rest) as s eqn:Hs.
    destruct H2 as [| m' rest' out' Hm' H2 | c s out' Hno H2].
    + symmetry in Hs. apply app_eq_nil in Hs as [-> ->].
      apply SameUpToCase_length in Hm. destruct q; [done | discriminate].
    + apply app_inj_1 in Hs as [-> ->].
      * f_equal. by apply IH.
      * apply SameUpToCase_length in Hm, Hm'. congruence.
    + exfalso. apply Hno. exists m, rest. by split.
  - inversion H2 as [| m' rest' out' Hm' H2' Heq | ? ? out' _ H2']; subst.
    + exfalso. apply Hno. exists m', rest'. by split.
    + f_equal. by apply IH.
Qed.

(** C4 (amended): for a query that is not empty, [highlightMatch] marks
    every occurrence of the query, up to case, that a left-to-right scan of
    the HTML-escaped field text meets, each scan resuming after the
    previous occurrence; its result is the only string so marked. *)
Theorem highlight_marks_every_occurrence (text q : jsstring) :
  q ≠ [] →
  ∃ out, highlightMatch text q = Some out
         ∧ MarkedAll q (escapeHtml text) out
         ∧ (∀ out', MarkedAll q (escapeHtml text) out' → out' = out).
Proof.
  intros Hq. exists (replaceAll q 0 (escapeHtml text)).
  split; [| split].
  - rewrite highlightMatch_value. by rewrite (proj2 (truthy_true q) Hq).
  - by apply replaceAll_MarkedAll.
  - intros out' Hout'. eapply MarkedAll_unique; [done | done |].
    by apply replaceAll_MarkedAll.
Qed.

End Highlighting.

(** C4, as stated, fails: both occurrences of the query are marked, not the
    first alone. *)
Lemma second_occurrence_is_marked_too :
  highlightMatch (H:=latinHost) (lit "faq faq") (lit "faq")
    = Some (lit "<mark>faq</mark> <mark>faq</mark>")
  ∧ markFirstOnly (H:=latinHost) (lit "faq") (lit "faq faq")
    = lit "<mark>faq</mark> faq"
  ∧ highlightMatch (H:=latinHost) (lit "faq faq") (lit "faq")
    ≠ Some (markFirstOnly (H:=latinHost) (lit "faq") (lit "faq faq")).
Proof. split; [by vm_compute |]. split; [by vm_compute |]. by vm_compute. Qed.

(** ** The debounced input handler *)

Section Debounce.
Context `{Host}.

Lemma onInput_fields v p :
  Settled p →
  timers (onInput v p) = [ {| timer_id := nextTimerId p; due := (now p + 150)%nat |} ]
  ∧ timeout (onInput v p) = Some (nextTimerId p)
  ∧ now (onInput v p) = now p
  ∧ inputValue (onInput v p) = v
  ∧ searchIndex (onInput v p) = searchIndex p
  ∧ resultsPanel (onInput v p) = resultsPanel p
  ∧ evaluated (onInput v p) = evaluated p.
Proof.
  destruct p as [nw nid q tmo val idx pan ev]. unfold Settled. simpl.
  intros [-> | (t & -> & ->)]; unfold onInput, debounce; simpl.
  - done.
  - rewrite bool_decide_eq_true_2 by done. done.
Qed.

Lemma onInput_Settled v p : Settled p → Settled (onInput v p).
Proof.
  intros Hp. destruct (onInput_fields v p Hp) as (Ht & Hto & _).
  right. eexists. split; [exact Ht | by rewrite Hto].
Qed.

Lemma fire_fields t p :
  timers p = [t] →
  timers (fire t p) = []
  ∧ timeout (fire t p) = timeout p
  ∧ now (fire t p) = due t
  ∧ inputValue (fire t p) = inputValue p
  ∧ searchIndex (fire t p) = searchIndex p
  ∧ resultsPanel (fire t p) =
      default (resultsPanel p) (handleSearch (inputValue p) (searchIndex p))
  ∧ evaluated (fire t p) = evaluated p ++ [(due t, inputValue p)].
Proof.
  destruct p as [nw nid q tmo val idx pan ev]. simpl. intros ->.
  unfold fire. simpl. rewrite bool_decide_eq_true_2 by done. done.
Qed.

Lemma elapse_idle ms p :
  timers p = [] → elapse ms p = setClock (now p + ms) p.
Proof. intros Hq. unfold elapse. by rewrite Hq. Qed.

Lemma elapse_early ms p t :
  timers p = [t] → (now p + ms < due t)%nat →
  elapse ms p = setClock (now p + ms) p.
Proof.
  intros Hq Hlt. unfold elapse. rewrite Hq. simpl.
  by rewrite (proj2 (Nat.leb_gt _ _) Hlt).
Qed.

Lemma elapse_fires ms p t :
  timers p = [t] → (due t ≤ now p + ms)%nat →
  elapse ms p = setClock (now p + ms) (fire t p).
Proof.
  intros Hq Hle. unfold elapse. rewrite Hq. simpl.
  by rewrite (proj2 (Nat.leb_le _ _) Hle).
Qed.

Lemma elapse_Settled ms p : Settled p → Settled (elapse ms p).
Proof.
  intros [Hq | (t & Hq & Hto)].
  - rewrite elapse_idle by done. by left.
  - destruct (decide (due t ≤ now p + ms)%nat).
    + rewrite (elapse_fires ms p t) by done. left.
      destruct (fire_fields t p Hq) as (Hf & _). exact Hf.
    + rewrite (elapse_early ms p t) by (done || lia). right. by exists t.
Qed.

Lemma run_Settled es p : Settled p → Settled (run es p).
Proof.
  revert p. induction es as [|e es IH]; intros p Hp; [done |].
  simpl. apply IH. destruct e; [by apply onInput_Settled | by apply elapse_Settled].
Qed.

Lemma Settled_pending p : Settled p → (length (timers p) ≤ 1)%nat.
Proof. intros [-> | (t & -> & _)]; simpl; lia. Qed.

(** A keystroke followed by a pause shorter than the delay: nothing runs. *)
Lemma keystroke_then_short_pause v gap p :
  Settled p → (gap < 150)%nat →
  let p' := elapse gap (onInput v p) in
  Settled p'
  ∧ now p' = (now p + gap)%nat
  ∧ searchIndex p' = searchIndex p
  ∧ resultsPanel p' = resultsPanel p
  ∧ evaluated p' = evaluated p.
Proof.
  intros Hp Hgap p'.
  destruct (onInput_fields v p Hp) as (Ht & Hto & Hnow & _ & Hidx & Hpan & Hev).
  subst p'. rewrite (elapse_early gap _ _ Ht) by (cbn [due]; lia).
  cbn [setClock now searchIndex resultsPanel evaluated].
  split; [| by rewrite Hnow].
  right. eexists. split; [exact Ht | exact Hto].
Qed.

Lemma burst_runs_nothing burst p :
  Settled p → Forall (λ e, (e.2 < 150)%nat) burst →
  let p' := run (burstEvents burst) p in
  Settled p'
  ∧ now p' = (now p + sum_list (snd <$> burst))%nat
  ∧ searchIndex p' = searchIndex p
  ∧ resultsPanel p' = resultsPanel p
  ∧ evaluated p' = evaluated p.
Proof.
  intros Hp Hgaps. revert p Hp.
  induction Hgaps as [|[v gap] burst Hgap _ IH]; intros p Hp p'.
  - subst p'. change (run (burstEvents []) p) with p.
    repeat split; [done |]. simpl. lia.
  - destruct (keystroke_then_short_pause v gap p Hp Hgap)
      as (Hs & Hnow & Hidx & Hpan & Hev).
    destruct (IH _ Hs) as (Hs' & Hnow' & Hidx' & Hpan' & Hev').
    subst p'.
    change (run (burstEvents ((v, gap) :: burst)) p)
      with (run (burstEvents burst) (elapse gap (onInput v p))).
    rewrite Hnow', Hidx', Hpan', Hev', Hnow, Hidx, Hpan, Hev.
    split; [done |]. split; [| done]. rewrite fmap_cons. simpl. lia.
Qed.

(** C9: input events less than 150 ms apart collapse into one run of
    [handleSearch].  From a page with no pending timer, a burst of
    keystrokes with pauses under 150 ms, then a last keystroke and a pause
    of at least 150 ms, runs [handleSearch] once, 150 ms after the last
    keystroke and on the value the box holds then; the earlier timers were
    cleared; and whatever the events, at most one timer is ever pending, so
    no two runs are outstanding together. *)
Theorem debounce_collapses_burst
    (p : page) (burst : list (jsstring * nat)) (v : jsstring) (quiet : nat) :
  timers p = [] →
  Forall (λ e, (e.2 < 150)%nat) burst →
  (150 ≤ quiet)%nat →
  let p' := run (burstEvents burst ++ [Input v; Elapse quiet]) p in
  evaluated p' =
    evaluated p ++ [((now p + sum_list (snd <$> burst) + 150)%nat, v)]
  ∧ resultsPanel p' =
      default (resultsPanel p) (handleSearch v (searchIndex p))
  ∧ timers p' = []
  ∧ (∀ es, (length (timers (run es p)) ≤ 1)%nat).
Proof.
  intros Hq Hgaps Hquiet p'.
  assert (Settled p) as Hp by (by left).
  split; [| split; [| split]].
  4: { intros es. by apply Settled_pending, run_Settled. }
  all: subst p'; unfold run; rewrite fold_left_app; fold (run (burstEvents burst) p);
    destruct (burst_runs_nothing burst p Hp Hgaps)
      as (Hs & Hnow & Hidx & Hpan & Hev);
    set (p1 := run (burstEvents burst) p) in *; cbn [fold_left step];
    destruct (onInput_fields v p1 Hs) as (Ht & Hto & Hnow1 & Hval & Hidx1 & Hpan1 & Hev1);
    rewrite (elapse_fires quiet _ _ Ht) by (cbn [due]; lia);
    destruct (fire_fields _ _ Ht) as (Hft & _ & _ & _ & _ & Hfpan & Hfev);
    cbn [setClock evaluated resultsPanel timers].
  - rewrite Hfev, Hev1, Hev, Hval. cbn [due]. by rewrite Hnow.
  - by rewrite Hfpan, Hpan1, Hpan, Hval, Hidx1, Hidx.
  - exact Hft.
Qed.

End Debounce.

(** ** The sidebar cursor *)

Lemma collected_item found n it :
  collectNavItems found !! n = Some it → navIndex it = Some n.
Proof.
  unfold collectNavItems. rewrite list_lookup_imap.
  destruct (found !! n); simpl; [| done]. by intros [= <-].
Qed.

Lemma focusItem_current found sb :
  navItems sb = collectNavItems found → focusItem (currentIndex sb) sb = sb.
Proof.
  destruct sb as [items cur]. simpl. intros ->. unfold focusItem, itemAt. simpl.
  destruct (Z.ltb_spec cur 0); [done |].
  destruct (collectNavItems found !! Z.to_nat cur) as [it|] eqn:Hit; [| done].
  destruct (takesFocus it); [| done].
  unfold onFocusIn. rewrite (collected_item _ _ _ Hit). simpl.
  f_equal. lia.
Qed.

Lemma focusItem_set found sb index :
  navItems sb = collectNavItems found →
  focusItem index (setCurrentIndex index sb) = setCurrentIndex index sb.
Proof.
  intros Hitems. by apply (focusItem_current found (setCurrentIndex index sb)).
Qed.

Lemma navigate_fields found sb op :
  navItems sb = collectNavItems found →
  let last := (Z.of_nat (length (navItems sb)) - 1)%Z in
  navItems (navigate sb op) = navItems sb
  ∧ currentIndex (navigate sb op) =
      match op with
      | Next => if (currentIndex sb <? last)%Z then (currentIndex sb + 1)%Z
                else currentIndex sb
      | Prev => if (currentIndex sb >? 0)%Z then (currentIndex sb - 1)%Z
                else currentIndex sb
      | First => 0%Z
      | Last => last
      end.
Proof.
  intros Hitems last. subst last.
  destruct op; simpl; unfold navigateNext, navigatePrev, navigateFirst, navigateLast;
    simpl; rewrite ?(focusItem_set found) by done;
    try destruct (_ <? _)%Z; try destruct (_ >? _)%Z;
    rewrite ?(focusItem_set found) by done; done.
Qed.

(** C10: with a list of items that is not empty, the cursor stays in range.
    [navigateNext] does nothing when the cursor is on the last item,
    [navigatePrev] nothing when it is at 0 or below, [navigateFirst] puts
    it at 0 and [navigateLast] on the last item; so from a cursor in
    [0 .. length - 1] every sequence of these operations leaves it there. *)
Theorem cursor_stays_in_range
    (found : list navItem) (sb : sidebar) (ops : list navOp) :
  found ≠ [] →
  navItems sb = collectNavItems found →
  let last := (Z.of_nat (length (navItems sb)) - 1)%Z in
  (currentIndex sb = last → navigateNext sb = sb)
  ∧ ((currentIndex sb ≤ 0)%Z → navigatePrev sb = sb)
  ∧ currentIndex (navigateFirst sb) = 0%Z
  ∧ currentIndex (navigateLast sb) = last
  ∧ ((0 ≤ currentIndex sb ≤ last)%Z →
       (0 ≤ currentIndex (fold_left navigate ops sb) ≤ last)%Z).
Proof.
  intros Hne Hitems last.
  assert (0 ≤ last)%Z as Hlast.
  { subst last. rewrite Hitems. unfold collectNavItems. rewrite length_imap.
    destruct found; [done | simpl; lia]. }
  split; [| split; [| split; [| split]]].
  - intros Hcur. unfold navigateNext. fold last.
    destruct (Z.ltb_spec (currentIndex sb) last); [lia | done].
  - intros Hcur. unfold navigatePrev.
    destruct (Z.gtb_spec (currentIndex sb) 0); [lia | done].
  - exact (proj2 (navigate_fields found sb First Hitems)).
  - exact (proj2 (navigate_fields found sb Last Hitems)).
  - subst last. revert sb Hitems Hlast.
    induction ops as [|op ops IH]; intros sb Hitems Hlast Hcur; [done |].
    simpl. destruct (navigate_fields found sb op Hitems) as [Hsame Hnew].
    rewrite <-Hsame. apply IH.
    + by rewrite Hsame.
    + by rewrite Hsame.
    + rewrite Hsame, Hnew. destruct op.
      * destruct (Z.ltb_spec (currentIndex sb)
                    (Z.of_nat (length (navItems sb)) - 1)); lia.
      * destruct (Z.gtb_spec (currentIndex sb) 0); lia.
      * lia.
      * lia.
Qed.

(** ** The properties at concrete pages *)

Section Instances.
#[local] Existing Instance latinHost.

(** The query [" Install "] on the guide page: one result, the record of
    the installation container. *)
Lemma query_returns_first_ten_containing_witness :
  toLowerCase (trim (lit " Install ")) ≠ []
  ∧ handleSearch (lit " Install ") (init guidePage) =
      renderResults
        (searchResultsFor (toLowerCase (trim (lit " Install "))) (init guidePage))
        (toLowerCase (trim (lit " Install ")))
  ∧ id <$> searchResultsFor (lit "install") (init guidePage) = [lit "install"].
Proof.
  split; [by vm_compute |]. split; [| by vm_compute].
  apply (query_returns_first_ten_containing (lit " Install ") (init guidePage)).
  by vm_compute.
Defined.


(** A box holding three spaces clears the panel. *)
Lemma blank_input_clears_panel_witness :
  toLowerCase [] = []
  ∧ Blankish (lit "   ")
  ∧ handleSearch (lit "   ") (init guidePage) = Some Blank.
Proof.
  assert (Blankish (lit "   ")) as Hb by (repeat constructor).
  split; [reflexivity |]. split; [exact Hb |].
  assert (toLowerCase [] = []) as Hlow by reflexivity.
  apply (blank_input_clears_panel (lit "   ") (init guidePage) Hlow Hb).
Defined.


(** The guide page: its containers have the ids [intro] and [install]. *)
Lemma ids_distinct_when_containers_distinct_witness :
  NoDup (elementId <$> List.filter yieldsRecord (doc_sections guidePage))
  ∧ NoDup (id <$> init guidePage).
Proof.
  assert (NoDup (elementId <$> List.filter yieldsRecord (doc_sections guidePage)))
    as Hnd by (refine (bool_decide_unpack _ _); vm_compute; exact I).
  split; [exact Hnd |].
  apply (ids_distinct_when_containers_distinct guidePage Hnd).
Defined.

(** The query [faq] in a title that has it twice. *)
Lemma highlight_marks_every_occurrence_witness :
  lit "faq" ≠ []
  ∧ ∃ out, highlightMatch (lit "faq faq") (lit "faq") = Some out
           ∧ MarkedAll (lit "faq") (escapeHtml (lit "faq faq")) out
           ∧ (∀ out', MarkedAll (lit "faq") (escapeHtml (lit "faq faq")) out' →
                      out' = out).
Proof.
  assert (lit "faq" ≠ []) as Hq by (by vm_compute).
  split; [exact Hq |].
  apply (highlight_marks_every_occurrence (lit "faq faq") (lit "faq") Hq).
Defined.

(** Three keystrokes 40 and 60 ms apart, then 200 ms of quiet:
    [handleSearch] runs once, at 250 ms, on the last value. *)
Lemma debounce_collapses_burst_witness :
  timers (loadedPage guidePage) = []
  ∧ Forall (λ e, (e.2 < 150)%nat) [(lit "i", 40%nat); (lit "in", 60%nat)]
  ∧ (150 ≤ 200)%nat
  ∧ evaluated (run (burstEvents [(lit "i", 40%nat); (lit "in", 60%nat)]
                      ++ [Input (lit "ins"); Elapse 200])
                   (loadedPage guidePage))
    = [(250%nat, lit "ins")].
Proof.
  assert (Forall (λ e : jsstring * nat, (e.2 < 150)%nat)
            [(lit "i", 40%nat); (lit "in", 60%nat)]) as Hgaps
    by (repeat constructor; simpl; lia).
  assert (150 ≤ 200)%nat as Hquiet by lia.
  split; [reflexivity |]. split; [exact Hgaps |]. split; [exact Hquiet |].
  apply (debounce_collapses_burst (loadedPage guidePage)
           [(lit "i", 40%nat); (lit "in", 60%nat)] (lit "ins") 200
           eq_refl Hgaps Hquiet).
Defined.

(** The cursor on the last of four items, moved about. *)
Lemma cursor_stays_in_range_witness :
  (0 ≤ currentIndex smallSidebar ≤ 3)%Z
  ∧ (0 ≤ currentIndex (fold_left navigate [Next; Prev; Prev; First; Prev; Last; Next]
                                 smallSidebar) ≤ 3)%Z
  ∧ navigateNext smallSidebar = smallSidebar.
Proof.
  assert (0 ≤ currentIndex smallSidebar ≤ 3)%Z as Hcur by (simpl; lia).
  pose proof (cursor_stays_in_range
                [ {| isAnchor := false; navIndex := None; takesFocus := true |};
                  {| isAnchor := true; navIndex := None; takesFocus := true |};
                  {| isAnchor := true; navIndex := None; takesFocus := false |};
                  {| isAnchor := true; navIndex := None; takesFocus := true |} ]
                smallSidebar [Next; Prev; Prev; First; Prev; Last; Next]
                ltac:(discriminate) eq_refl) as (Hnext & _ & _ & _ & Hrange).
  split; [exact Hcur |]. split; [exact (Hrange Hcur) |]. exact (Hnext eq_refl).
Defined.

End Instances.

(** * Further properties of the scripts *)

(** ** The index builder *)

Lemma links_loop_shape d links idx :
  ∃ more,
    fold_left (indexLink d) links idx = idx ++ more
    ∧ (length more ≤ length links)%nat
    ∧ NoDup (id <$> more)
    ∧ (∀ x, x ∈ id <$> more → x ∉ id <$> idx)
    ∧ Forall (λ it, content it = []) more.
Proof.
  revert idx. induction links as [|l links IH]; intros idx.
  - exists []. rewrite app_nil_r. repeat split; try done; try constructor.
    intros x Hx. by apply elem_of_nil in Hx.
  - simpl. destruct (indexLink_cases d idx l)
      as [-> | (target & it & -> & _ & Hex & Hid & _ & Hcont)].
    + destruct (IH idx) as (more & -> & Hlen & Hnd & Hdis & Hc).
      exists more. repeat split; try done. lia.
    + destruct (IH (idx ++ [it])) as (more & -> & Hlen & Hnd & Hdis & Hc).
      exists (it :: more). rewrite <-app_assoc. simpl.
      split; [done |]. split; [lia |]. split; [| split].
      * apply NoDup_cons. split; [| done]. intros Hin.
        apply (Hdis _ Hin). rewrite fmap_app. apply elem_of_app. right.
        simpl. left.
      * intros x Hx. apply elem_of_cons in Hx as [-> | Hx].
        -- rewrite Hid. intros Hin. apply idExists_spec in Hin. congruence.
        -- intros Hin. apply (Hdis _ Hx). rewrite fmap_app.
           apply elem_of_app. by left.
      * by constructor.
Qed.

Lemma indexSection_content d s :
  Forall (λ it, (length (content it) ≤ 500)%nat) (indexSection d [] s).
Proof.
  unfold indexSection. destruct (_ || _); [| constructor].
  simpl app. constructor; [| constructor]. cbn [content].
  rewrite (substring_prefix 500), length_take. lia.
Qed.

Lemma sectionRecords_content d :
  Forall (λ it, (length (content it) ≤ 500)%nat) (sectionRecords d).
Proof.
  unfold sectionRecords. induction (doc_sections d) as [|s secs IH]; simpl.
  - constructor.
  - apply Forall_app. split; [apply indexSection_content | done].
Qed.

Lemma buildSearchIndex_shape d idx :
  ∃ more,
    buildSearchIndex d idx = idx ++ sectionRecords d ++ more
    ∧ (length more ≤ length (doc_navLinks d))%nat
    ∧ NoDup (id <$> more)
    ∧ (∀ x, x ∈ id <$> more → x ∉ id <$> (idx ++ sectionRecords d))
    ∧ Forall (λ it, content it = []) more.
Proof.
  unfold buildSearchIndex. rewrite sections_loop. fold (sectionRecords d).
  destruct (links_loop_shape d (doc_navLinks d) (idx ++ sectionRecords d))
    as (more & -> & Hrest).
  exists more. by rewrite <-app_assoc.
Qed.

Lemma sectionRecords_length d :
  (length (sectionRecords d) ≤ length (doc_sections d))%nat.
Proof.
  unfold sectionRecords. induction (doc_sections d) as [|s secs IH]; simpl.
  - lia.
  - rewrite length_app. unfold indexSection at 1.
    destruct (_ || _); simpl; lia.
Qed.

(** X1: a build never drops or reorders what the index holds: the index it
    is given is a prefix of the index it returns, and it adds at most one
    record per content container and per sidebar link. *)
Theorem build_extends_index (d : document) (idx : list item) :
  idx `prefix_of` buildSearchIndex d idx
  ∧ (length (buildSearchIndex d idx)
     ≤ length idx + length (doc_sections d) + length (doc_navLinks d))%nat.
Proof.
  destruct (buildSearchIndex_shape d idx) as (more & -> & Hlen & _).
  split; [by eexists |].
  rewrite !length_app. pose proof (sectionRecords_length d). lia.
Qed.

(** X2: the records the sidebar links add come after the records of the
    content containers; their ids are pairwise distinct and differ from
    the id of every container record, and their content is empty. *)
Theorem link_records_are_new (d : document) :
  ∃ linkRecords,
    init d = sectionRecords d ++ linkRecords
    ∧ NoDup (id <$> linkRecords)
    ∧ (∀ x, x ∈ id <$> linkRecords → x ∉ id <$> sectionRecords d)
    ∧ Forall (λ it, content it = []) linkRecords.
Proof.
  destruct (buildSearchIndex_shape d []) as (more & Heq & _ & Hnd & Hdis & Hc).
  exists more. by repeat split.
Qed.

Lemma iter_reindex d n :
  Nat.iter n (reindex d) (init d) =
  init d ++ concat (replicate n (sectionRecords d))
  ∧ (∀ link target, link ∈ doc_navLinks d → linkTarget link = Some target →
       idExists (Nat.iter n (reindex d) (init d)) target = true).
Proof.
  induction n as [|n [IH Hknown]]; simpl.
  - split; [by rewrite app_nil_r |].
    intros link target Hin Ht. unfold init, buildSearchIndex.
    by apply links_loop_complete with link.
  - assert (reindex d (Nat.iter n (reindex d) (init d)) =
            Nat.iter n (reindex d) (init d) ++ sectionRecords d) as Hstep.
    { unfold reindex, buildSearchIndex. rewrite sections_loop.
      fold (sectionRecords d). apply links_loop_fixed.
      intros link target Hin Ht. apply idExists_app. by apply (Hknown link). }
    rewrite Hstep. split.
    + rewrite IH, <-app_assoc. f_equal.
      clear. induction n as [|n IHn]; simpl; [by rewrite app_nil_r |].
      by rewrite <-app_assoc, IHn.
    + intros link target Hin Ht. apply idExists_app. by apply (Hknown link).
Qed.

(** X3: every call of [reindex] on an unchanged page appends one more copy
    of the container records: after [n] calls the index is the initial one
    followed by [n] copies, so its length grows by the number of container
    records each time. *)
Theorem reindex_n_times (d : document) (n : nat) :
  Nat.iter n (reindex d) (init d) =
    init d ++ concat (replicate n (sectionRecords d))
  ∧ length (Nat.iter n (reindex d) (init d)) =
      (length (init d) + n * length (sectionRecords d))%nat.
Proof.
  destruct (iter_reindex d n) as [Heq _]. split; [done |].
  rewrite Heq, length_app. f_equal.
  clear. induction n as [|n IH]; simpl; [done |].
  rewrite length_app, IH. lia.
Qed.

(** X4: whatever the page and however often the index is rebuilt, the
    content of every record is at most 500 code units long. *)
Theorem content_never_exceeds_limit (d : document) (n : nat) :
  Forall (λ it, (length (content it) ≤ 500)%nat)
         (Nat.iter n (reindex d) (init d)).
Proof.
  destruct (iter_reindex d n) as [-> _].
  destruct (buildSearchIndex_shape d []) as (more & Hinit & _ & _ & _ & Hc).
  apply Forall_app. split.
  - unfold init. rewrite Hinit. simpl. apply Forall_app. split.
    + apply sectionRecords_content.
    + eapply Forall_impl; [exact Hc |]. intros it ->. simpl. lia.
  - induction n as [|n IH]; simpl; [constructor |].
    apply Forall_app. split; [apply sectionRecords_content | done].
Qed.


(** ** The query engine, further *)

Lemma Contains_trans q q' s : Contains q q' → Contains q' s → Contains q s.
Proof.
  intros (b1 & a1 & ->) (b2 & a2 & ->).
  exists (b2 ++ b1), (a1 ++ a2). by rewrite <-!app_assoc.
Qed.

Lemma trimStart_skip pre s : Blankish pre → trimStart (pre ++ s) = trimStart s.
Proof. induction 1 as [|c pre Hc _ IH]; simpl; [done | by rewrite Hc]. Qed.

Lemma trimStart_keep s post :
  trimStart s ≠ [] → trimStart (s ++ post) = trimStart s ++ post.
Proof.
  induction s as [|c s IH]; simpl; [done |].
  destruct (isWhiteSpace c); [done | by intros _].
Qed.

Lemma Blankish_rev s : Blankish s → Blankish (rev s).
Proof. unfold Blankish. apply List.Forall_rev. Qed.

Lemma trimEnd_skip s post : Blankish post → trimEnd (s ++ post) = trimEnd s.
Proof.
  intros Hpost. unfold trimEnd. rewrite rev_app_distr.
  by rewrite trimStart_skip by by apply Blankish_rev.
Qed.

Lemma trim_padding pre s post :
  Blankish pre → Blankish post → trim (pre ++ s ++ post) = trim s.
Proof.
  intros Hpre Hpost. unfold trim. rewrite trimStart_skip by done.
  destruct (decide (trimStart s = [])) as [Hs | Hs].
  - assert (trimStart (s ++ post) = []) as ->; [| by rewrite Hs].
    clear Hpre. induction s as [|c s IH]; simpl in *.
    + by apply trimStart_blank.
    + destruct (isWhiteSpace c); [by apply IH | done].
  - rewrite trimStart_keep by done. by apply trimEnd_skip.
Qed.

Section QueryFurther.
Context `{Host}.

(** X6: typing more never brings in a record: when the query [q] occurs
    inside the query [q'], every record that matches [q'], and so every
    record the search for [q'] returns, matches [q] as well. *)
Theorem longer_query_matches_less (q q' : jsstring) (idx : list item) :
  Contains q q' →
  (∀ it, matchesQuery q' it = true → matchesQuery q it = true)
  ∧ (∀ it, it ∈ searchResultsFor q' idx → matchesQuery q it = true).
Proof.
  intros Hsub.
  assert (∀ it, matchesQuery q' it = true → matchesQuery q it = true) as Hmono.
  { intros it. rewrite !matchesQuery_spec.
    intros [Ht | Hc]; [left | right]; by eapply Contains_trans. }
  split; [done |]. intros it. rewrite searchResultsFor_take.
  intros Hin. apply elem_of_take in Hin as (i & Hin & _).
  apply list_elem_of_lookup_2, list_elem_of_In, filter_In in Hin as [_ Hm].
  by apply Hmono.
Qed.

(** X7: white space around the text of the search box does not change
    what is shown. *)
Theorem padding_is_ignored (pre value post : jsstring) (idx : list item) :
  Blankish pre → Blankish post →
  handleSearch (pre ++ value ++ post) idx = handleSearch value idx.
Proof.
  intros Hpre Hpost. unfold handleSearch. by rewrite trim_padding.
Qed.

Lemma renderResults_items results q :
  results ≠ [] →
  ∃ items,
    renderResults results q = Some (Results items)
    ∧ Forall2 (λ x r, renderItem q x.1 x.2 = Some r) (imap pair results) items.
Proof.
  intros Hne. unfold renderResults.
  rewrite bool_decide_eq_false_2 by (by destruct results).
  destruct (renderResults_total results q) as [pn Hpn]. unfold renderResults in Hpn.
  rewrite bool_decide_eq_false_2 in Hpn by (by destruct results).
  destruct (mapM _ _) as [items|] eqn:Hm; [| done].
  exists items. split; [done |]. by apply mapM_Some.
Qed.

(** X8: for a query that is not empty, the no-results block is shown
    exactly when no record of the index contains the query, and it names
    the query HTML-escaped; otherwise the panel lists as many items as
    there are matching records, up to ten. *)
Theorem no_results_iff_no_match (value : jsstring) (idx : list item) :
  let q := toLowerCase (trim value) in
  q ≠ [] →
  (Forall (λ it, ¬ RecordContains q it) idx →
     handleSearch value idx = Some (NoResults (escapeHtml q)))
  ∧ (Exists (RecordContains q) idx →
       ∃ items, handleSearch value idx = Some (Results items)
                ∧ items ≠ []
                ∧ length items =
                    Nat.min 10 (length (List.filter (matchesQuery q) idx))).
Proof.
  intros q Hq. rewrite handleSearch_query by done. fold q.
  rewrite searchResultsFor_take. split.
  - intros Hnone.
    assert (List.filter (matchesQuery q) idx = []) as ->.
    { induction Hnone as [|it idx Hit _ IH]; simpl; [done |].
      destruct (matchesQuery q it) eqn:Hm; [| done].
      by apply matchesQuery_spec in Hm. }
    done.
  - intros Hsome.
    assert (List.filter (matchesQuery q) idx ≠ []) as Hne.
    { induction Hsome as [it idx Hit | it idx _ IH]; simpl.
      - apply matchesQuery_spec in Hit. by rewrite Hit.
      - by destruct (matchesQuery q it). }
    assert (take 10 (List.filter (matchesQuery q) idx) ≠ []) as Hne'.
    { by destruct (List.filter (matchesQuery q) idx). }
    destruct (renderResults_items _ q Hne') as (items & -> & HF).
    exists items. split; [done |].
    apply Forall2_length in HF. rewrite length_imap, length_take in HF.
    split; [| lia].
    intros ->. simpl in HF.
    destruct (List.filter (matchesQuery q) idx); [done | simpl in HF; lia].
Qed.




End QueryFurther.

(** ** Escaping, highlighting and truncation, further *)

Lemma escapeHtmlChar_safe c :
  Forall (λ x, x ≠ 60 ∧ x ≠ 62 ∧ x ≠ 160) (escapeHtmlChar c).
Proof.
  unfold escapeHtmlChar.
  destruct (N.eqb_spec c 38); [by vm_compute; repeat constructor |].
  destruct (N.eqb_spec c 60); [by vm_compute; repeat constructor |].
  destruct (N.eqb_spec c 62); [by vm_compute; repeat constructor |].
  destruct (N.eqb_spec c 160); [by vm_compute; repeat constructor |].
  by repeat constructor.
Qed.

Lemma escapeHtml_no_lt text : Forall (λ x, x ≠ 60) (escapeHtml text).
Proof.
  unfold escapeHtml. induction text as [|c text IH]; simpl; [constructor |].
  apply Forall_app. split; [| done].
  eapply Forall_impl; [apply escapeHtmlChar_safe |]. by intros x [? _].
Qed.

(** X10: escaped text is inert markup: [escapeHtml] never returns a [<],
    a [>] or a no-break space, whatever the text. *)
Theorem escapeHtml_has_no_markup (text : jsstring) :
  Forall (λ x, x ≠ 60 ∧ x ≠ 62 ∧ x ≠ 160) (escapeHtml text).
Proof.
  unfold escapeHtml. induction text as [|c text IH]; simpl; [constructor |].
  apply Forall_app. split; [apply escapeHtmlChar_safe | done].
Qed.

Lemma eraseTags_plain s rest :
  Forall (λ x, x ≠ 60) s → eraseTags 0 (s ++ rest) = s ++ eraseTags 0 rest.
Proof.
  induction 1 as [|c s Hc _ IH]; [done |].
  change ((c :: s) ++ rest) with (c :: (s ++ rest)).
  change (lit "<mark>") with [60; 109; 97; 114; 107; 62] in *.
  cbn [eraseTags startsWith].
  change (lit "<mark>") with [60; 109; 97; 114; 107; 62].
  change (lit "</mark>") with [60; 47; 109; 97; 114; 107; 62].
  cbn [startsWith].
  rewrite (proj2 (N.eqb_neq 60 c)) by done. cbn [andb].
  by rewrite IH.
Qed.

Lemma eraseTags_mark m out :
  Forall (λ x, x ≠ 60) m →
  eraseTags 0 (markUp m ++ out) = m ++ eraseTags 0 out.
Proof.
  intros Hm. unfold markUp.
  change (lit "<mark>") with [60; 109; 97; 114; 107; 62].
  change (lit "</mark>") with [60; 47; 109; 97; 114; 107; 62].
  rewrite <-!app_assoc.
  change (eraseTags 0 ([60; 109; 97; 114; 107; 62] ++
            m ++ [60; 47; 109; 97; 114; 107; 62] ++ out))
    with (eraseTags 0 (m ++ [60; 47; 109; 97; 114; 107; 62] ++ out)).
  rewrite eraseTags_plain by done. done.
Qed.

Section HighlightFurther.
Context `{Host}.

Lemma MarkedAll_erase q s out :
  MarkedAll q s out → Forall (λ x, x ≠ 60) s → eraseTags 0 out = s.
Proof.
  induction 1 as [| m rest out Hm _ IH | c s out _ _ IH]; intros Hs.
  - done.
  - apply Forall_app in Hs as [Hm' Hrest].
    rewrite eraseTags_mark by done. by rewrite IH.
  - apply Forall_cons in Hs as [Hc Hs].
    change (c :: out) with ([c] ++ out).
    rewrite (eraseTags_plain [c] out) by (by constructor).
    simpl. by rewrite IH.
Qed.

(** X11: highlighting adds mark tags and nothing else: with every
    [<mark>] and [</mark>] deleted, what [highlightMatch] returns is the
    HTML-escaped text, for every text and every query. *)
Theorem highlight_only_adds_marks (text query : jsstring) :
  ∃ out, highlightMatch text query = Some out
         ∧ eraseTags 0 out = escapeHtml text.
Proof.
  rewrite highlightMatch_value. eexists. split; [reflexivity |].
  assert (Forall (λ x, x ≠ 60) (escapeHtml text)) as Hsafe.
  { apply escapeHtml_no_lt. }
  destruct (truthy query) eqn:Hq.
  - apply (MarkedAll_erase query); [| done].
    apply replaceAll_MarkedAll. by apply truthy_true.
  - rewrite <-(app_nil_r (escapeHtml text)) at 1.
    rewrite eraseTags_plain by done. simpl. by rewrite app_nil_r.
Qed.

End HighlightFurther.

(** X12: [truncate] returns at most [n + 3] code units, the first [n] of
    them being those of the text; a text longer than [n] always comes back
    with exactly [n + 3], which for a text of [n + 1] or [n + 2] code units
    is longer than the text itself. *)
Theorem truncate_length (text : jsstring) (n : nat) :
  (length (truncate text n) ≤ n + 3)%nat
  ∧ take n (truncate text n) = take n text
  ∧ ((n < length text)%nat → length (truncate text n) = (n + 3)%nat)
  ∧ ((n < length text < n + 3)%nat →
       (length text < length (truncate text n))%nat).
Proof.
  destruct (decide (length text ≤ n)%nat) as [Hle | Hgt].
  - rewrite truncate_short by done. repeat split; lia.
  - assert (length (truncate text n) = (n + 3)%nat) as Hlen.
    { rewrite truncate_long by lia. rewrite length_app, length_take.
      change (length (lit "...")) with 3%nat. lia. }
    split; [lia |]. split; [| split; [done | lia]].
    rewrite truncate_long by lia. rewrite take_app_le by (rewrite length_take; lia).
    rewrite take_take. f_equal. lia.
Qed.

(** ** Choosing a result with the keys *)

Lemma find_at {A} (f : A → bool) (l : list A) pos :
  (pos < length l)%nat →
  (∀ i x, l !! i = Some x → f x = bool_decide (i = pos)) →
  List.find f l = l !! pos.
Proof.
  revert pos. induction l as [|x l IH]; intros pos Hlt Hf; simpl in *; [lia |].
  pose proof (Hf 0%nat x eq_refl) as Hx. destruct pos as [|pos].
  - by rewrite Hx.
  - rewrite Hx. simpl. apply IH; [lia |].
    intros i y Hy. rewrite (Hf (S i) y Hy).
    apply bool_decide_ext. lia.
Qed.

Lemma SelectedAt_find pos items :
  SelectedAt pos items → List.find selected items = items !! pos.
Proof.
  intros [Hlt Hall]. apply find_at; [done |].
  intros i r Hr. by destruct (Hall i r Hr).
Qed.

Lemma SelectedAt_index pos items r :
  SelectedAt pos items → items !! pos = Some r → dataIndex r = pos.
Proof. intros [_ Hall] Hr. by destruct (Hall pos r Hr). Qed.

Lemma reselect_lookup index items i :
  reselect index items !! i =
  (λ r, {| href := href r; selected := bool_decide (Z.of_nat i = index);
           dataIndex := dataIndex r; sectionHtml := sectionHtml r;
           titleHtml := titleHtml r; excerptHtml := excerptHtml r |})
  <$> items !! i.
Proof. unfold reselect. by rewrite list_lookup_imap. Qed.

Lemma reselect_SelectedAt pos pos' items :
  SelectedAt pos items → (pos' < length items)%nat →
  SelectedAt pos' (reselect (Z.of_nat pos') items).
Proof.
  intros [_ Hall] Hlt. split; [unfold reselect; by rewrite length_imap |].
  intros i r. rewrite reselect_lookup.
  destruct (items !! i) as [r0|] eqn:Hr0; [| done]. intros [= <-]. simpl.
  split; [by destruct (Hall i r0 Hr0) |]. apply bool_decide_ext. lia.
Qed.

Lemma reselect_hrefs index items :
  href <$> reselect index items = href <$> items.
Proof.
  apply list_eq. intros i. rewrite !list_lookup_fmap, reselect_lookup.
  by destruct (items !! i).
Qed.

Lemma arrow_down pos items :
  SelectedAt pos items →
  handleKeyNavigation (lit "ArrowDown") (Results items) =
  {| panelAfter :=
       Results (reselect (Z.of_nat (Nat.min (pos + 1) (length items - 1))) items);
     defaultPrevented := true; clicked := None |}.
Proof.
  intros Hsel. pose proof Hsel as [Hlt _]. unfold handleKeyNavigation.
  rewrite bool_decide_eq_false_2 by lia.
  rewrite (SelectedAt_find pos) by done.
  destruct (items !! pos) as [r|] eqn:Hr;
    [| apply lookup_ge_None in Hr; lia].
  rewrite (SelectedAt_index pos items r) by done.
  rewrite bool_decide_eq_true_2 by done. do 3 f_equal. lia.
Qed.

Lemma arrow_up pos items :
  SelectedAt pos items →
  handleKeyNavigation (lit "ArrowUp") (Results items) =
  {| panelAfter := Results (reselect (Z.of_nat (pos - 1)) items);
     defaultPrevented := true; clicked := None |}.
Proof.
  intros Hsel. pose proof Hsel as [Hlt _]. unfold handleKeyNavigation.
  rewrite bool_decide_eq_false_2 by lia.
  rewrite (SelectedAt_find pos) by done.
  destruct (items !! pos) as [r|] eqn:Hr;
    [| apply lookup_ge_None in Hr; lia].
  rewrite (SelectedAt_index pos items r) by done.
  rewrite bool_decide_eq_false_2 by (by vm_compute).
  rewrite bool_decide_eq_true_2 by done. do 3 f_equal. lia.
Qed.

Lemma enter_key pos items :
  SelectedAt pos items →
  handleKeyNavigation (lit "Enter") (Results items) =
  {| panelAfter := Results items; defaultPrevented := true;
     clicked := items !! pos |}.
Proof.
  intros Hsel. pose proof Hsel as [Hlt _]. unfold handleKeyNavigation.
  rewrite bool_decide_eq_false_2 by lia.
  rewrite (SelectedAt_find pos) by done.
  destruct (items !! pos) as [r|] eqn:Hr;
    [| apply lookup_ge_None in Hr; lia].
  rewrite bool_decide_eq_false_2 by (by vm_compute).
  rewrite bool_decide_eq_false_2 by (by vm_compute).
  by rewrite bool_decide_eq_true_2 by done.
Qed.

(** X13: in a list where one item is selected, the arrow keys keep it so:
    ArrowDown selects the next item and stays on the last, ArrowUp selects
    the previous one and stays on the first, no other item is selected,
    and the items keep their links; Enter clicks the selected item and
    leaves the list as it is. *)
Theorem arrows_keep_one_selected (pos : nat) (items : list resultItem) :
  SelectedAt pos items →
  (∃ items',
      panelAfter (handleKeyNavigation (lit "ArrowDown") (Results items))
        = Results items'
      ∧ SelectedAt (Nat.min (pos + 1) (length items - 1)) items'
      ∧ href <$> items' = href <$> items)
  ∧ (∃ items',
      panelAfter (handleKeyNavigation (lit "ArrowUp") (Results items))
        = Results items'
      ∧ SelectedAt (pos - 1) items'
      ∧ href <$> items' = href <$> items)
  ∧ handleKeyNavigation (lit "Enter") (Results items) =
      {| panelAfter := Results items; defaultPrevented := true;
         clicked := items !! pos |}.
Proof.
  intros Hsel. pose proof Hsel as [Hlt _]. split; [| split].
  - rewrite (arrow_down pos) by done. eexists. split; [reflexivity |].
    split; [apply (reselect_SelectedAt pos); [done | lia] |].
    apply reselect_hrefs.
  - rewrite (arrow_up pos) by done. eexists. split; [reflexivity |].
    split; [apply (reselect_SelectedAt pos); [done | lia] |].
    apply reselect_hrefs.
  - by apply enter_key.
Qed.


Section ChooseResult.
Context `{Host}.



End ChooseResult.

(** ** The overlay and the pending evaluation *)

Lemma onDocumentKeydown_cases e inputFocused ov :
  (onDocumentKeydown e inputFocused ov).1 = ov
  ∨ (onDocumentKeydown e inputFocused ov).1 = openSearch ov
  ∨ (onDocumentKeydown e inputFocused ov).1 = closeSearch ov
  ∨ (onDocumentKeydown e inputFocused ov).1 = closeSearch (openSearch ov).
Proof.
  unfold onDocumentKeydown.
  destruct (_ && bool_decide (key e = lit "k"));
    destruct (bool_decide (key e = lit "/") && _);
    destruct (bool_decide (key e = lit "Escape")); simpl;
    try destruct (isOpen ov); simpl; auto.
Qed.

Lemma overlayStep_cases ov op :
  overlayStep ov op = ov
  ∨ overlayStep ov op = openSearch ov
  ∨ overlayStep ov op = closeSearch ov
  ∨ overlayStep ov op = closeSearch (openSearch ov).
Proof.
  destruct op as [e inputFocused | |]; simpl; auto.
  apply onDocumentKeydown_cases.
Qed.

Lemma overlayStep_keeps ov op :
  FlagsAgree ov →
  FlagsAgree (overlayStep ov op)
  ∧ timers (ov_page (overlayStep ov op)) = timers (ov_page ov)
  ∧ timeout (ov_page (overlayStep ov op)) = timeout (ov_page ov)
  ∧ searchIndex (ov_page (overlayStep ov op)) = searchIndex (ov_page ov).
Proof.
  intros Hflags.
  destruct (overlayStep_cases ov op) as [-> | [-> | [-> | ->]]];
    repeat split; try done; apply Hflags.
Qed.

(** X15: the overlay's flags stay together and its operations leave the
    timers alone: after any sequence of document keys, trigger clicks and
    backdrop clicks, the modal has the class [open] and the page scroll is
    locked exactly when [isOpen] holds, the pending timers and the index
    are those from before (closing cancels no evaluation), and Escape on
    a closed overlay changes nothing. *)
Theorem overlay_flags_agree (ov : overlay) (ops : list overlayOp) :
  FlagsAgree ov →
  FlagsAgree (fold_left overlayStep ops ov)
  ∧ timers (ov_page (fold_left overlayStep ops ov)) = timers (ov_page ov)
  ∧ timeout (ov_page (fold_left overlayStep ops ov)) = timeout (ov_page ov)
  ∧ searchIndex (ov_page (fold_left overlayStep ops ov)) = searchIndex (ov_page ov)
  ∧ (isOpen ov = false →
     ∀ inputFocused,
       onDocumentKeydown {| key := lit "Escape"; metaKey := false; ctrlKey := false |}
                         inputFocused ov = (ov, false)).
Proof.
  intros Hflags. split; [| split; [| split; [| split]]].
  5: { intros Hclosed inputFocused. destruct ov as [pg o m sl].
       simpl in Hclosed. subst o. by vm_compute. }
  all: revert ov Hflags; induction ops as [|op ops IH]; intros ov Hflags;
    [done |];
    destruct (overlayStep_keeps ov op Hflags) as (Hnext & Ht & Hto & Hidx);
    simpl.
  - by apply IH.
  - by rewrite IH.
  - by rewrite IH.
  - by rewrite IH.
Qed.

Section Reopen.
Context `{Host}.

Lemma handleSearch_empty idx :
  toLowerCase [] = [] → handleSearch [] idx = Some Blank.
Proof. intros Hlow. unfold handleSearch. by rewrite (trim_blank []), Hlow by constructor. Qed.

Lemma fireDue_blank target q p :
  toLowerCase [] = [] →
  inputValue p = [] → resultsPanel p = Blank →
  inputValue (fireDue target q p) = []
  ∧ resultsPanel (fireDue target q p) = Blank.
Proof.
  intros Hlow. revert p. induction q as [|t q IH]; intros p Hval Hpan; [done |].
  simpl. destruct (due t <=? target)%nat; [| done].
  apply IH.
  - done.
  - unfold fire, runHandleSearch. cbn [resultsPanel clearTimeout setTimers setClock
      inputValue searchIndex]. rewrite Hval, Hpan.
    by rewrite handleSearch_empty.
Qed.

(** X16: what was typed before the overlay was opened again is never
    shown: [openSearch] empties the box without cancelling the pending
    timer, and when that timer fires, [handleSearch] reads the empty box
    and leaves the panel empty, however much time passes. *)
Theorem reopened_panel_stays_empty (ov : overlay) (pauses : list nat) :
  toLowerCase [] = [] →
  let p := run (Elapse <$> pauses) (ov_page (openSearch ov)) in
  resultsPanel p = Blank
  ∧ inputValue p = []
  ∧ timers (ov_page (openSearch ov)) = timers (ov_page ov).
Proof.
  intros Hlow p. split; [| split]; [| | done].
  all: subst p;
    assert (inputValue (ov_page (openSearch ov)) = []
            ∧ resultsPanel (ov_page (openSearch ov)) = Blank) as Hstart by done;
    revert Hstart; generalize (ov_page (openSearch ov)); clear ov;
    induction pauses as [|ms pauses IH]; intros p [Hval Hpan]; [done |];
    change (run (Elapse <$> (ms :: pauses)) p)
      with (run (Elapse <$> pauses) (elapse ms p));
    apply IH; unfold elapse; cbn [inputValue resultsPanel setClock];
    by apply fireDue_blank.
Qed.

End Reopen.

(** ** The debounced handler, further *)

Section DebounceFurther.
Context `{Host}.

Lemma step_budget p e :
  Settled p →
  Settled (step p e)
  ∧ (length (evaluated (step p e)) + length (timers (step p e))
     ≤ length (evaluated p) + length (timers p) + (if isInput e then 1 else 0))%nat
  ∧ searchIndex (step p e) = searchIndex p.
Proof.
  intros Hp. destruct e as [v | ms]; cbn [step isInput].
  - destruct (onInput_fields v p Hp) as (Ht & _ & _ & _ & Hidx & _ & Hev).
    split; [by apply onInput_Settled |]. rewrite Ht, Hev, Hidx. simpl.
    split; [lia | done].
  - split; [by apply elapse_Settled |].
    destruct Hp as [Hq | (t & Hq & Hto)].
    + rewrite elapse_idle by done. cbn [setClock evaluated timers searchIndex].
      split; [lia | done].
    + destruct (decide (due t ≤ now p + ms)%nat).
      * rewrite (elapse_fires ms p t) by done.
        cbn [setClock evaluated timers searchIndex].
        destruct (fire_fields t p Hq) as (-> & _ & _ & _ & -> & _ & ->).
        rewrite Hq, length_app. simpl. split; [lia | done].
      * rewrite (elapse_early ms p t) by (done || lia).
        cbn [setClock evaluated timers searchIndex]. split; [lia | done].
Qed.

Lemma run_budget es p :
  Settled p →
  Settled (run es p)
  ∧ (length (evaluated (run es p)) + length (timers (run es p))
     ≤ length (evaluated p) + length (timers p)
       + length (List.filter isInput es))%nat
  ∧ searchIndex (run es p) = searchIndex p.
Proof.
  revert p. induction es as [|e es IH]; intros p Hp.
  - split; [done |]. split; [simpl; lia | done].
  - change (run (e :: es) p) with (run es (step p e)).
    destruct (step_budget p e Hp) as (Hs & Hle & Hidx).
    destruct (IH _ Hs) as (Hs' & Hle' & Hidx').
    split; [done |]. split; [| congruence].
    simpl. destruct (isInput e); simpl in *; lia.
Qed.

(** X17: [handleSearch] never runs more often than the user typed: from a
    page with no pending timer, after any sequence of keystrokes and
    pauses, the number of runs is at most the number of keystrokes. *)
Theorem runs_bounded_by_keystrokes (p : page) (es : list event) :
  timers p = [] →
  (length (evaluated (run es p))
   ≤ length (evaluated p) + length (List.filter isInput es))%nat.
Proof.
  intros Hq. destruct (run_budget es p) as (_ & Hle & _); [by left |].
  rewrite Hq in Hle. simpl in Hle. lia.
Qed.

(** X18: the last keystroke is never lost: after any sequence of
    keystrokes and pauses, a keystroke followed by at least 150 ms of
    quiet makes [handleSearch] run exactly once more, 150 ms after that
    keystroke, on the value typed and on the unchanged index, and leaves no
    timer pending. *)
Theorem last_keystroke_is_evaluated
    (p : page) (es : list event) (v : jsstring) (quiet : nat) :
  timers p = [] →
  (150 ≤ quiet)%nat →
  let before := run es p in
  let after := run (es ++ [Input v; Elapse quiet]) p in
  evaluated after = evaluated before ++ [((now before + 150)%nat, v)]
  ∧ resultsPanel after =
      default (resultsPanel before) (handleSearch v (searchIndex p))
  ∧ timers after = [].
Proof.
  intros Hq Hquiet before after.
  destruct (run_budget es p) as (Hs & _ & Hidx); [by left |].
  subst after. unfold run. rewrite fold_left_app. fold (run es p). fold before.
  fold before in Hs, Hidx. cbn [fold_left step].
  destruct (onInput_fields v before Hs)
    as (Ht & _ & Hnow1 & Hval & Hidx1 & Hpan1 & Hev1).
  rewrite (elapse_fires quiet _ _ Ht) by (cbn [due]; lia).
  destruct (fire_fields _ _ Ht) as (Hft & _ & _ & _ & _ & Hfpan & Hfev).
  cbn [setClock evaluated resultsPanel timers].
  rewrite Hfev, Hfpan, Hev1, Hpan1, Hval, Hidx1, Hidx. by cbn [due].
Qed.

End DebounceFurther.

(** ** The sidebar, further *)

Lemma liveSidebar_collected nd found :
  navItems (nd_sidebar nd) = collectNavItems found →
  navItems (liveSidebar nd) =
  collectNavItems
    (imap (λ i it, {| isAnchor := isAnchor it; navIndex := navIndex it;
                      takesFocus := takesFocus it && displayed nd i |}) found).
Proof.
  intros Hitems. unfold liveSidebar. cbn [navItems]. rewrite Hitems.
  unfold collectNavItems. apply list_eq. intros i.
  rewrite !list_lookup_imap. by destruct (found !! i).
Qed.

Lemma liveSidebar_length nd :
  length (navItems (liveSidebar nd)) = length (navItems (nd_sidebar nd)).
Proof. unfold liveSidebar. cbn [navItems]. by rewrite length_imap. Qed.

Lemma focusSidebar_fields found sb :
  navItems sb = collectNavItems found →
  navItems (focusSidebar sb) = navItems sb
  ∧ currentIndex (focusSidebar sb) = Z.max (currentIndex sb) 0.
Proof.
  intros Hitems. unfold focusSidebar.
  destruct (Z.ltb_spec (currentIndex sb) 0).
  - rewrite (focusItem_set found) by done. simpl. split; [done | lia].
  - rewrite (focusItem_current found) by done. split; [done | lia].
Qed.

(** The cursor after a cursor operation run through [withCursor]. *)
Lemma withCursor_navigate found nd op :
  navItems (nd_sidebar nd) = collectNavItems found →
  let last := (Z.of_nat (length (navItems (nd_sidebar nd))) - 1)%Z in
  let cur := currentIndex (nd_sidebar nd) in
  currentIndex (nd_sidebar (withCursor (λ sb, navigate sb op) nd)) =
    match op with
    | Next => if (cur <? last)%Z then (cur + 1)%Z else cur
    | Prev => if (cur >? 0)%Z then (cur - 1)%Z else cur
    | First => 0%Z
    | Last => last
    end.
Proof.
  intros Hitems last cur. unfold withCursor. cbn [setCursor nd_sidebar setCurrentIndex currentIndex].
  destruct (navigate_fields _ (liveSidebar nd) op (liveSidebar_collected nd found Hitems))
    as [_ ->].
  rewrite liveSidebar_length. done.
Qed.

Lemma toggleNavGroup_sidebar title nd :
  nd_sidebar (toggleNavGroup title nd) = nd_sidebar nd.
Proof. unfold toggleNavGroup. by destruct (groupAt nd title). Qed.

Lemma expandCurrentGroup_sidebar nd :
  nd_sidebar (expandCurrentGroup nd) = nd_sidebar nd.
Proof.
  unfold expandCurrentGroup. destruct (itemAt _ _); [| done].
  destruct (groupAt _ _) as [g|]; [| done].
  destruct (isCollapsed nd g); [| done].
  by destruct (nd_groups nd !! g ≫= firstTitle).
Qed.

Lemma activateCurrentItem_sidebar nd :
  nd_sidebar (activateCurrentItem nd) = nd_sidebar nd.
Proof.
  unfold activateCurrentItem. destruct (itemAt _ _) as [it|]; [| done].
  destruct (isAnchor it); [done | apply toggleNavGroup_sidebar].
Qed.

Lemma highlightNavItem_sidebar sectionId nd :
  nd_sidebar (highlightNavItem sectionId nd) = nd_sidebar nd.
Proof.
  unfold highlightNavItem. destruct (findLink _ _) as [link|]; [| done].
  destruct (groupAt _ link) as [g|]; [| done].
  by destruct (isCollapsed _ g).
Qed.

Lemma onIntersections_sidebar entries nd :
  nd_sidebar (onIntersections entries nd) = nd_sidebar nd.
Proof.
  unfold onIntersections. revert nd.
  induction entries as [|[hit target] entries IH]; intros nd; [done |].
  simpl. rewrite IH. destruct hit; [apply highlightNavItem_sidebar | done].
Qed.

Lemma collapseCurrentGroup_sidebar found nd :
  navItems (nd_sidebar nd) = collectNavItems found →
  navItems (nd_sidebar (collapseCurrentGroup nd)) = navItems (nd_sidebar nd)
  ∧ (currentIndex (nd_sidebar (collapseCurrentGroup nd)) = currentIndex (nd_sidebar nd)
     ∨ ∃ title,
         currentIndex (nd_sidebar (collapseCurrentGroup nd)) =
           Z.of_nat (default 0%nat (navItems (nd_sidebar nd) !! title ≫= navIndex))).
Proof.
  intros Hitems. unfold collapseCurrentGroup.
  destruct (itemAt _ _); [| by split; [| left]].
  destruct (groupAt _ _) as [g|]; [| by split; [| left]].
  destruct (negb (isCollapsed nd g)); [| by split; [| left]].
  destruct (nd_groups nd !! g ≫= firstTitle) as [title|]; [| by split; [| left]].
  split; [done |]. right. exists title. done.
Qed.

Lemma collected_navIndex_bound found title :
  found ≠ [] →
  (default 0%nat (collectNavItems found !! title ≫= navIndex)
   < length (collectNavItems found))%nat.
Proof.
  intros Hne.
  assert (0 < length (collectNavItems found))%nat as Hpos.
  { unfold collectNavItems. rewrite length_imap. destruct found; [done | simpl; lia]. }
  destruct (collectNavItems found !! title) as [it|] eqn:Hit; [| done].
  simpl. rewrite (collected_item _ _ _ Hit). simpl.
  by apply lookup_lt_Some in Hit.
Qed.

Lemma handleSidebarKeydown_cursor found nd k targetIsAnchor :
  found ≠ [] →
  navItems (nd_sidebar nd) = collectNavItems found →
  let last := (Z.of_nat (length (navItems (nd_sidebar nd))) - 1)%Z in
  let cur := currentIndex (nd_sidebar nd) in
  let cur' := currentIndex (nd_sidebar (handleSidebarKeydown k targetIsAnchor nd).1) in
  navItems (nd_sidebar (handleSidebarKeydown k targetIsAnchor nd).1)
    = navItems (nd_sidebar nd)
  ∧ ((-1 ≤ cur ≤ last)%Z → (-1 ≤ cur' ≤ last)%Z)
  ∧ ((0 ≤ cur ≤ last)%Z → (0 ≤ cur' ≤ last)%Z).
Proof.
  intros Hne Hitems last cur cur'.
  assert (0 ≤ last)%Z as Hlast.
  { subst last. rewrite Hitems. unfold collectNavItems. rewrite length_imap.
    destruct found; [done | simpl; lia]. }
  assert (∀ op, navItems (nd_sidebar (withCursor (λ sb, navigate sb op) nd))
                = navItems (nd_sidebar nd)
              ∧ ((-1 ≤ cur ≤ last)%Z →
                 (-1 ≤ currentIndex (nd_sidebar (withCursor (λ sb, navigate sb op) nd)) ≤ last)%Z)
              ∧ ((0 ≤ cur ≤ last)%Z →
                 (0 ≤ currentIndex (nd_sidebar (withCursor (λ sb, navigate sb op) nd)) ≤ last)%Z))
    as Hnav.
  { intros op. split; [done |].
    rewrite (withCursor_navigate found nd op Hitems). fold last cur.
    destruct op.
    - destruct (Z.ltb_spec cur last); lia.
    - destruct (Z.gtb_spec cur 0); lia.
    - lia.
    - lia. }
  assert (navItems (nd_sidebar (collapseCurrentGroup nd)) = navItems (nd_sidebar nd)
          ∧ ((-1 ≤ cur ≤ last)%Z →
             (-1 ≤ currentIndex (nd_sidebar (collapseCurrentGroup nd)) ≤ last)%Z)
          ∧ ((0 ≤ cur ≤ last)%Z →
             (0 ≤ currentIndex (nd_sidebar (collapseCurrentGroup nd)) ≤ last)%Z))
    as Hcollapse.
  { destruct (collapseCurrentGroup_sidebar found nd Hitems) as [Hsame [-> | [title ->]]].
    - done.
    - split; [done |]. rewrite Hitems.
      pose proof (collected_navIndex_bound found title Hne) as Hb.
      subst last. rewrite Hitems. split; intros _; lia. }
  assert (∀ nd0, nd_sidebar nd0 = nd_sidebar nd →
            navItems (nd_sidebar nd0) = navItems (nd_sidebar nd)
            ∧ ((-1 ≤ cur ≤ last)%Z → (-1 ≤ currentIndex (nd_sidebar nd0) ≤ last)%Z)
            ∧ ((0 ≤ cur ≤ last)%Z → (0 ≤ currentIndex (nd_sidebar nd0) ≤ last)%Z))
    as Hsame.
  { intros nd0 ->. done. }
  subst cur'. unfold handleSidebarKeydown.
  repeat (destruct (_ || _) || destruct (bool_decide _) || destruct targetIsAnchor);
    cbn [fst];
    try apply (Hnav Next); try apply (Hnav Prev);
    try apply (Hnav First); try apply (Hnav Last);
    try apply Hcollapse; apply Hsame;
    try done; try apply expandCurrentGroup_sidebar;
    apply activateCurrentItem_sidebar.
Qed.

Lemma sidebarStep_cursor found nd ev :
  found ≠ [] →
  navItems (nd_sidebar nd) = collectNavItems found →
  let last := (Z.of_nat (length (navItems (nd_sidebar nd))) - 1)%Z in
  let cur := currentIndex (nd_sidebar nd) in
  let cur' := currentIndex (nd_sidebar (sidebarStep nd ev)) in
  navItems (nd_sidebar (sidebarStep nd ev)) = navItems (nd_sidebar nd)
  ∧ ((-1 ≤ cur ≤ last)%Z → (-1 ≤ cur' ≤ last)%Z)
  ∧ ((0 ≤ cur ≤ last)%Z → (0 ≤ cur' ≤ last)%Z).
Proof.
  intros Hne Hitems last cur cur'. subst cur'.
  destruct ev as [k targetIsAnchor | k title | title | | entries];
    cbn [sidebarStep].
  - by apply (handleSidebarKeydown_cursor found).
  - unfold keydownOnTitle.
    destruct (onTitleKeydown k title nd) as [nd1 prevented1] eqn:Htitle.
    assert (nd_sidebar nd1 = nd_sidebar nd) as Hsb.
    { unfold onTitleKeydown in Htitle.
      destruct (_ || _); injection Htitle as <- _;
        [apply toggleNavGroup_sidebar | done]. }
    destruct (handleSidebarKeydown k _ nd1) as [nd2 prevented2] eqn:Hkey.
    cbn [fst].
    pose proof (handleSidebarKeydown_cursor found nd1 k
                  (default false (isAnchor <$> navItems (nd_sidebar nd) !! title))
                  Hne) as Hstep.
    rewrite Hkey, Hsb in Hstep. cbn [fst] in Hstep. by apply Hstep.
  - rewrite toggleNavGroup_sidebar. subst last cur. repeat split; lia.
  - split; [done |]. unfold withCursor.
    cbn [setCursor nd_sidebar setCurrentIndex currentIndex].
    destruct (focusSidebar_fields _ (liveSidebar nd) (liveSidebar_collected nd found Hitems))
      as [_ ->].
    assert (0 ≤ last)%Z as Hlast.
    { subst last. rewrite Hitems. unfold collectNavItems. rewrite length_imap.
      destruct found; [done | simpl; lia]. }
    cbn [liveSidebar currentIndex]. fold cur. split; lia.
  - rewrite onIntersections_sidebar. subst last cur. repeat split; lia.
Qed.

(** X19: with a list of items that is not empty, no event moves the
    cursor out of range.  From the first state of the script, where the
    cursor is -1, arrow and vim keys, Home and End, Enter and Space,
    expanding and collapsing a group, a key or click on a group title, the
    [s] shortcut and the scroll spy keep the cursor between -1 and the
    last position; and once it is on an item it stays on one. *)
Theorem cursor_never_leaves_range
    (found : list navItem) (nd : navDom) (evs : list sidebarEvent) :
  found ≠ [] →
  navItems (nd_sidebar nd) = collectNavItems found →
  let last := (Z.of_nat (length (navItems (nd_sidebar nd))) - 1)%Z in
  let nd' := fold_left sidebarStep evs nd in
  navItems (nd_sidebar nd') = navItems (nd_sidebar nd)
  ∧ ((-1 ≤ currentIndex (nd_sidebar nd) ≤ last)%Z →
     (-1 ≤ currentIndex (nd_sidebar nd') ≤ last)%Z)
  ∧ ((0 ≤ currentIndex (nd_sidebar nd) ≤ last)%Z →
     (0 ≤ currentIndex (nd_sidebar nd') ≤ last)%Z).
Proof.
  intros Hne. revert nd. induction evs as [|ev evs IH]; intros nd Hitems last nd'.
  - done.
  - subst nd'. simpl.
    destruct (sidebarStep_cursor found nd ev Hne Hitems) as (Hsame & Hwide & Hnarrow).
    destruct (IH (sidebarStep nd ev)) as (Hsame' & Hwide' & Hnarrow').
    { by rewrite Hsame. }
    rewrite Hsame in Hwide', Hnarrow'. subst last.
    split; [congruence |]. split; intros Hcur; [apply Hwide' | apply Hnarrow']; auto.
Qed.

Lemma sidebar_eq sb sb' :
  navItems sb = navItems sb' → currentIndex sb = currentIndex sb' → sb = sb'.
Proof. destruct sb, sb'. simpl. by intros -> ->. Qed.

Lemma iter_next found sb k :
  navItems sb = collectNavItems found →
  (currentIndex sb ≤ Z.of_nat (length (navItems sb)) - 1)%Z →
  navItems (Nat.iter k navigateNext sb) = navItems sb
  ∧ currentIndex (Nat.iter k navigateNext sb) =
      Z.min (currentIndex sb + Z.of_nat k) (Z.of_nat (length (navItems sb)) - 1).
Proof.
  intros Hitems Hcur. induction k as [|k [IHitems IHcur]].
  - simpl. split; [done | lia].
  - rewrite !Nat.iter_succ.
    destruct (navigate_fields found (Nat.iter k navigateNext sb) Next)
      as [Hsame Hnew]; [congruence |].
    cbn [navigate] in Hsame, Hnew. rewrite Hsame, Hnew, IHitems, IHcur.
    split; [done |].
    destruct (Z.ltb_spec (Z.min (currentIndex sb + Z.of_nat k)
                                (Z.of_nat (length (navItems sb)) - 1))
                         (Z.of_nat (length (navItems sb)) - 1)); lia.
Qed.

Lemma iter_prev found sb k :
  navItems sb = collectNavItems found →
  navItems (Nat.iter k navigatePrev sb) = navItems sb
  ∧ currentIndex (Nat.iter k navigatePrev sb) =
      if (currentIndex sb <=? 0)%Z then currentIndex sb
      else Z.max (currentIndex sb - Z.of_nat k) 0.
Proof.
  intros Hitems. induction k as [|k [IHitems IHcur]].
  - simpl. split; [done |]. destruct (Z.leb_spec (currentIndex sb) 0); lia.
  - rewrite !Nat.iter_succ.
    destruct (navigate_fields found (Nat.iter k navigatePrev sb) Prev)
      as [Hsame Hnew]; [congruence |].
    cbn [navigate] in Hsame, Hnew. rewrite Hsame, Hnew, IHitems, IHcur.
    split; [done |].
    destruct (Z.leb_spec (currentIndex sb) 0).
    + destruct (Z.gtb_spec (currentIndex sb) 0); lia.
    + destruct (Z.gtb_spec (Z.max (currentIndex sb - Z.of_nat k) 0) 0); lia.
Qed.

(** X20: [k] steps forward put the cursor [k] items further, or on the
    last item if there are fewer left; [k] steps back put it [k] items
    back, or on the first if there are fewer, and do nothing to a cursor
    that is on no item; so stepping forward [k] times where there is room
    and back [k] times returns the sidebar to the state it was in. *)
Theorem steps_forward_and_back
    (found : list navItem) (sb : sidebar) (k : nat) :
  navItems sb = collectNavItems found →
  let last := (Z.of_nat (length (navItems sb)) - 1)%Z in
  ((currentIndex sb ≤ last)%Z →
     currentIndex (Nat.iter k navigateNext sb)
       = Z.min (currentIndex sb + Z.of_nat k) last)
  ∧ currentIndex (Nat.iter k navigatePrev sb)
      = (if (currentIndex sb <=? 0)%Z then currentIndex sb
         else Z.max (currentIndex sb - Z.of_nat k) 0)
  ∧ ((0 ≤ currentIndex sb)%Z → (currentIndex sb + Z.of_nat k ≤ last)%Z →
       Nat.iter k navigatePrev (Nat.iter k navigateNext sb) = sb).
Proof.
  intros Hitems last. split; [| split].
  - intros Hcur. by destruct (iter_next found sb k Hitems Hcur) as [_ ->].
  - by destruct (iter_prev found sb k Hitems) as [_ ->].
  - intros Hlow Hroom.
    destruct (iter_next found sb k Hitems) as [Hsame Hcur]; [subst last; lia |].
    destruct (iter_prev found (Nat.iter k navigateNext sb) k) as [Hsame' Hcur'];
      [congruence |].
    apply sidebar_eq; [congruence |].
    rewrite Hcur', Hcur. subst last.
    destruct (Z.leb_spec (Z.min (currentIndex sb + Z.of_nat k)
                                (Z.of_nat (length (navItems sb)) - 1)) 0); lia.
Qed.

(** *** Groups *)

Lemma isCollapsed_setCollapsed b g nd :
  is_Some (nd_groups nd !! g) → isCollapsed (setCollapsed b g nd) g = b.
Proof.
  intros [gr Hgr]. unfold isCollapsed, setCollapsed. cbn [nd_groups].
  rewrite list_lookup_alter_eq, Hgr. done.
Qed.

Lemma isCollapsed_setAriaExpanded b position nd g :
  isCollapsed (setAriaExpanded b position nd) g = isCollapsed nd g.
Proof. done. Qed.

Lemma groupAt_Some nd position g :
  groupAt nd position = Some g →
  ∃ pl, nd_places nd !! position = Some pl ∧ pl_group pl = Some g
        ∧ is_Some (nd_groups nd !! g).
Proof.
  unfold groupAt. destruct (nd_places nd !! position) as [pl|]; [| done].
  simpl. destruct (pl_group pl) as [g'|] eqn:Hpl; [| done]. simpl.
  destruct (nd_groups nd !! g') eqn:Hg; [| done]. simpl.
  intros [= <-]. exists pl. split; [done |]. split; [done |]. by rewrite Hg.
Qed.

Lemma groupAt_toggled nd title position :
  groupAt (toggleNavGroup title nd) position = groupAt nd position.
Proof.
  unfold toggleNavGroup. destruct (groupAt nd title) as [g|]; [| done].
  unfold groupAt, setAriaExpanded, setCollapsed. cbn [nd_places nd_groups].
  destruct (decide (title = position)) as [-> | Hne].
  - rewrite list_lookup_alter_eq.
    destruct (nd_places nd !! position) as [pl|]; [| done]. simpl.
    destruct (pl_group pl) as [g'|]; [| done]. simpl.
    destruct (decide (g = g')) as [-> | Hg].
    + rewrite list_lookup_alter_eq. by destruct (nd_groups nd !! g').
    + by rewrite list_lookup_alter_ne.
  - rewrite list_lookup_alter_ne by done.
    destruct (nd_places nd !! position) as [pl|]; [| done]. simpl.
    destruct (pl_group pl) as [g'|]; [| done]. simpl.
    destruct (decide (g = g')) as [-> | Hg].
    + rewrite list_lookup_alter_eq. by destruct (nd_groups nd !! g').
    + by rewrite list_lookup_alter_ne.
Qed.

Lemma toggleNavGroup_collapsed nd title g :
  groupAt nd title = Some g →
  isCollapsed (toggleNavGroup title nd) g = negb (isCollapsed nd g)
  ∧ (pl_ariaExpanded <$> nd_places (toggleNavGroup title nd) !! title)
      = Some (Some (isCollapsed nd g)).
Proof.
  intros Hg. destruct (groupAt_Some nd title g Hg) as (pl & Hpl & _ & Hsome).
  unfold toggleNavGroup. rewrite Hg. cbn zeta.
  rewrite isCollapsed_setAriaExpanded, isCollapsed_setCollapsed by done.
  split; [done |].
  unfold setAriaExpanded. cbn [nd_places setCollapsed].
  rewrite list_lookup_alter_eq, Hpl. simpl. by rewrite negb_involutive.
Qed.

Lemma toggleNavGroup_twice nd title :
  nd_groups (toggleNavGroup title (toggleNavGroup title nd)) = nd_groups nd.
Proof.
  destruct (groupAt nd title) as [g|] eqn:Hg.
  - pose proof (groupAt_toggled nd title title) as Hg'. rewrite Hg in Hg'.
    destruct (toggleNavGroup_collapsed nd title g Hg) as [Hflip _].
    unfold toggleNavGroup at 1. rewrite Hg'. cbn zeta.
    cbn [setAriaExpanded nd_groups setCollapsed]. rewrite Hflip, negb_involutive.
    unfold toggleNavGroup. rewrite Hg.
    cbn [setAriaExpanded nd_groups setCollapsed].
    apply list_eq. intros i. destruct (decide (i = g)) as [-> | Hne].
    + rewrite !list_lookup_alter_eq. unfold isCollapsed.
      destruct (nd_groups nd !! g) as [[c t]|]; done.
    + by rewrite !list_lookup_alter_ne.
  - unfold toggleNavGroup. rewrite Hg. by rewrite Hg.
Qed.

Lemma sidebar_key_enter nd k :
  k = lit "Enter" ∨ k = lit " " →
  handleSidebarKeydown k false nd = (activateCurrentItem nd, true).
Proof. intros [-> | ->]; reflexivity. Qed.

(** X21: a click on a group title flips its group between collapsed and
    expanded and writes the new state to the title's [aria-expanded]; two
    toggles restore every group; and Enter or Space on a group title that
    is the current item toggles the group twice, once by the title's own
    listener and once by the sidebar's, so the key leaves every group as
    it was. *)
Theorem title_key_toggles_twice
    (nd : navDom) (title g : nat) (it : navItem) (k : jsstring) :
  k = lit "Enter" ∨ k = lit " " →
  navItems (nd_sidebar nd) !! title = Some it →
  isAnchor it = false →
  currentIndex (nd_sidebar nd) = Z.of_nat title →
  groupAt nd title = Some g →
  isCollapsed (toggleNavGroup title nd) g = negb (isCollapsed nd g)
  ∧ (pl_ariaExpanded <$> nd_places (toggleNavGroup title nd) !! title)
      = Some (Some (negb (isCollapsed (toggleNavGroup title nd) g)))
  ∧ nd_groups (toggleNavGroup title (toggleNavGroup title nd)) = nd_groups nd
  ∧ keydownOnTitle k title nd
      = (toggleNavGroup title (toggleNavGroup title nd), true)
  ∧ nd_groups (keydownOnTitle k title nd).1 = nd_groups nd.
Proof.
  intros Hk Hit Hanchor Hcur Hg.
  destruct (toggleNavGroup_collapsed nd title g Hg) as [Hflip Haria].
  split; [done |]. split; [by rewrite Hflip, negb_involutive |].
  split; [apply toggleNavGroup_twice |].
  assert (keydownOnTitle k title nd
          = (toggleNavGroup title (toggleNavGroup title nd), true)) as Hkey.
  { unfold keydownOnTitle, onTitleKeydown.
    assert (bool_decide (k = lit "Enter") || bool_decide (k = lit " ") = true) as ->
      by (destruct Hk as [-> | ->]; reflexivity).
    rewrite Hit. cbn [fmap option_fmap option_map default]. rewrite Hanchor.
    rewrite sidebar_key_enter by done.
    unfold activateCurrentItem. rewrite toggleNavGroup_sidebar.
    unfold itemAt. rewrite Hcur.
    destruct (Z.ltb_spec (Z.of_nat title) 0); [lia |].
    rewrite Nat2Z.id, Hit, Hanchor. done. }
  split; [done |]. rewrite Hkey. apply toggleNavGroup_twice.
Qed.

(** *** The scroll spy *)

Lemma clearActive_lookup nd i pl :
  nd_places (clearActive nd) !! i = Some pl → pl_active pl = false.
Proof.
  unfold clearActive. cbn [nd_places]. rewrite list_lookup_fmap.
  destruct (nd_places nd !! i); [| done]. by intros [= <-].
Qed.

Lemma setActive_lookup nd link i pl :
  (∀ j plj, nd_places nd !! j = Some plj → pl_active plj = false) →
  nd_places (setActive link nd) !! i = Some pl →
  pl_active pl = true → i = link.
Proof.
  intros Hnone. unfold setActive. cbn [nd_places].
  destruct (decide (link = i)) as [-> | Hne]; [done |].
  rewrite list_lookup_alter_ne by done. intros Hpl Hact.
  by rewrite (Hnone i pl Hpl) in Hact.
Qed.

Lemma groupAt_setCollapsed b g nd position :
  groupAt (setCollapsed b g nd) position = groupAt nd position.
Proof.
  unfold groupAt, setCollapsed. cbn [nd_places nd_groups].
  destruct (nd_places nd !! position) as [pl|]; [| done]. simpl.
  destruct (pl_group pl) as [g'|]; [| done]. simpl.
  destruct (decide (g = g')) as [-> | Hg].
  - rewrite list_lookup_alter_eq. by destruct (nd_groups nd !! g').
  - by rewrite list_lookup_alter_ne.
Qed.

Lemma highlightNavItem_places sectionId nd :
  nd_places (highlightNavItem sectionId nd) =
  match findLink (clearActive nd) (lit "#" ++ sectionId) with
  | Some link => nd_places (setActive link (clearActive nd))
  | None => nd_places (clearActive nd)
  end.
Proof.
  unfold highlightNavItem. destruct (findLink _ _) as [link|]; [| done].
  destruct (groupAt _ link) as [g|]; [| done].
  by destruct (isCollapsed _ g).
Qed.

Lemma highlightNavItem_one sectionId nd :
  AtMostOneActive (highlightNavItem sectionId nd).
Proof.
  intros i j pli plj. rewrite highlightNavItem_places.
  destruct (findLink _ _) as [link|].
  - intros Hi Hj Hai Haj.
    rewrite (setActive_lookup _ link i pli (clearActive_lookup nd) Hi Hai).
    by rewrite (setActive_lookup _ link j plj (clearActive_lookup nd) Hj Haj).
  - intros Hi _ Hai _. by rewrite (clearActive_lookup nd i pli Hi) in Hai.
Qed.

Lemma findLink_bound nd target link :
  findLink nd target = Some link → (link < length (nd_places nd))%nat.
Proof.
  unfold findLink. destruct (List.find _ _) as [[i pl]|] eqn:Hfind; [| done].
  intros [= <-]. apply find_some in Hfind as [Hin _].
  apply list_elem_of_In, list_elem_of_lookup in Hin as [j Hj].
  rewrite list_lookup_imap in Hj.
  destruct (nd_places nd !! j) eqn:Hpl; [| done].
  injection Hj as <- _. by apply lookup_lt_Some in Hpl.
Qed.

(** X22: the scroll spy keeps the highlight single: after
    [highlightNavItem] at most one item is active, whatever the sidebar
    was like; it is the first link to the section, whose group is then
    expanded; no [aria-expanded] attribute is written, so a group the
    scroll spy expands keeps the attribute it had; and a report of
    intersections keeps a single highlight single. *)
Theorem scroll_spy_keeps_one_active
    (nd : navDom) (sectionId : jsstring) (entries : list (bool * jsstring)) :
  AtMostOneActive (highlightNavItem sectionId nd)
  ∧ (∀ link, findLink (clearActive nd) (lit "#" ++ sectionId) = Some link →
       (pl_active <$> nd_places (highlightNavItem sectionId nd) !! link) = Some true
       ∧ ∀ g, groupAt (highlightNavItem sectionId nd) link = Some g →
              isCollapsed (highlightNavItem sectionId nd) g = false)
  ∧ (pl_ariaExpanded <$> nd_places (highlightNavItem sectionId nd))
      = (pl_ariaExpanded <$> nd_places nd)
  ∧ (AtMostOneActive nd → AtMostOneActive (onIntersections entries nd)).
Proof.
  split; [apply highlightNavItem_one |]. split; [| split].
  - intros link Hlink. split.
    + rewrite highlightNavItem_places, Hlink. unfold setActive. cbn [nd_places].
      rewrite list_lookup_alter_eq.
      pose proof (findLink_bound _ _ _ Hlink) as Hlt.
      destruct (nd_places (clearActive nd) !! link) eqn:Hpl;
        [done | apply lookup_ge_None in Hpl; lia].
    + intros g. unfold highlightNavItem. rewrite Hlink.
      destruct (groupAt (setActive link (clearActive nd)) link) as [g'|] eqn:Hg';
        [| intros Hg; congruence].
      destruct (isCollapsed (setActive link (clearActive nd)) g') eqn:Hc.
      * rewrite groupAt_setCollapsed, Hg'. intros [= <-].
        apply isCollapsed_setCollapsed.
        by destruct (groupAt_Some _ _ _ Hg') as (_ & _ & _ & Hsome).
      * intros Hg. rewrite Hg' in Hg. injection Hg as <-. done.
  - rewrite highlightNavItem_places. destruct (findLink _ _) as [link|].
    + unfold setActive, clearActive. cbn [nd_places].
      apply list_eq. intros i. rewrite !list_lookup_fmap.
      destruct (decide (link = i)) as [-> | Hne].
      * rewrite list_lookup_alter_eq, list_lookup_fmap.
        by destruct (nd_places nd !! i).
      * rewrite list_lookup_alter_ne by done. rewrite list_lookup_fmap.
        by destruct (nd_places nd !! i).
    + unfold clearActive. cbn [nd_places]. rewrite <-list_fmap_compose.
      done.
  - revert nd. unfold onIntersections.
    induction entries as [|[hit target] entries IH]; intros nd Hone; [done |].
    simpl. apply IH. destruct hit; [apply highlightNavItem_one | done].
Qed.

(** ** The further properties at concrete pages *)

Section FurtherInstances.
#[local] Existing Instance latinHost.


(** [inst] occurs in [install]. *)
Lemma longer_query_matches_less_witness :
  Contains (lit "inst") (lit "install")
  ∧ ∀ it, it ∈ searchResultsFor (lit "install") (init guidePage) →
          matchesQuery (lit "inst") it = true.
Proof.
  assert (Contains (lit "inst") (lit "install")) as Hsub
    by (exists [], (lit "all"); reflexivity).
  split; [exact Hsub |].
  apply (longer_query_matches_less (lit "inst") (lit "install") (init guidePage) Hsub).
Defined.

(** Two spaces before and a tab after [install]. *)
Lemma padding_is_ignored_witness :
  Blankish (lit "  ") ∧ Blankish [9%N]
  ∧ handleSearch (lit "  " ++ lit "install" ++ [9%N]) (init guidePage)
    = handleSearch (lit "install") (init guidePage).
Proof.
  assert (Blankish (lit "  ")) as Hpre by (repeat constructor).
  assert (Blankish [9%N]) as Hpost by (repeat constructor).
  split; [exact Hpre |]. split; [exact Hpost |].
  apply (padding_is_ignored (lit "  ") (lit "install") [9%N] (init guidePage) Hpre Hpost).
Defined.

(** No record of the guide page contains [zebra]. *)
Lemma no_results_iff_no_match_witness :
  toLowerCase (trim (lit "zebra")) ≠ []
  ∧ Forall (λ it, ¬ RecordContains (toLowerCase (trim (lit "zebra"))) it)
           (init guidePage)
  ∧ handleSearch (lit "zebra") (init guidePage)
    = Some (NoResults (escapeHtml (toLowerCase (trim (lit "zebra"))))).
Proof.
  assert (toLowerCase (trim (lit "zebra")) ≠ []) as Hq by (by vm_compute).
  assert (Forall (λ it, ¬ RecordContains (toLowerCase (trim (lit "zebra"))) it)
                 (init guidePage)) as Hnone.
  { apply Forall_forall. intros it Hin. rewrite <-matchesQuery_spec.
    revert it Hin. apply Forall_forall.
    apply (Forall_fold_right
             (λ it, ¬ matchesQuery (toLowerCase (trim (lit "zebra"))) it = true)).
    vm_compute. repeat split; discriminate. }
  split; [exact Hq |]. split; [exact Hnone |].
  pose proof (no_results_iff_no_match (lit "zebra") (init guidePage)) as Hthm.
  cbv zeta in Hthm. destruct (Hthm Hq) as [Hno _]. exact (Hno Hnone).
Defined.


(** A text of eleven code units cut for a limit of ten. *)
Lemma truncate_length_witness :
  (10 < length (lit "Hello world") < 10 + 3)%nat
  ∧ (length (lit "Hello world") < length (truncate (lit "Hello world") 10))%nat.
Proof.
  assert (10 < length (lit "Hello world") < 10 + 3)%nat as Hlen
    by (vm_compute; lia).
  split; [exact Hlen |].
  destruct (truncate_length (lit "Hello world") 10) as (_ & _ & _ & Hlonger).
  exact (Hlonger Hlen).
Defined.

Lemma twoItems_selected : SelectedAt 0 twoItems.
Proof.
  split; [simpl; lia |].
  intros [|[|i]] r; simpl; intros Hr; [| | done]; by injection Hr as <-.
Qed.

(** Two items, the first selected. *)
Lemma arrows_keep_one_selected_witness :
  SelectedAt 0 twoItems
  ∧ handleKeyNavigation (lit "Enter") (Results twoItems) =
      {| panelAfter := Results twoItems; defaultPrevented := true;
         clicked := twoItems !! 0%nat |}.
Proof.
  split; [exact twoItems_selected |].
  destruct (arrows_keep_one_selected 0 twoItems twoItems_selected)
    as (_ & _ & Henter).
  exact Henter.
Defined.


(** The closed overlay: Ctrl+K, then Escape. *)
Lemma overlay_flags_agree_witness :
  FlagsAgree (closedOverlay guidePage)
  ∧ FlagsAgree
      (fold_left overlayStep
         [ DocumentKey {| key := lit "k"; metaKey := false; ctrlKey := true |} false;
           DocumentKey {| key := lit "Escape"; metaKey := false; ctrlKey := false |} true ]
         (closedOverlay guidePage)).
Proof.
  assert (FlagsAgree (closedOverlay guidePage)) as Hflags by (by split).
  split; [exact Hflags |].
  apply (overlay_flags_agree (closedOverlay guidePage) _ Hflags).
Defined.

(** The overlay reopened, then 100 and 200 ms. *)
Lemma reopened_panel_stays_empty_witness :
  toLowerCase [] = []
  ∧ resultsPanel (run (Elapse <$> [100%nat; 200%nat])
                      (ov_page (openSearch (closedOverlay guidePage)))) = Blank.
Proof.
  assert (toLowerCase [] = []) as Hlow by reflexivity.
  split; [exact Hlow |].
  apply (reopened_panel_stays_empty (closedOverlay guidePage) [100%nat; 200%nat] Hlow).
Defined.

(** Two keystrokes 40 ms apart and a pause. *)
Lemma runs_bounded_by_keystrokes_witness :
  timers (loadedPage guidePage) = []
  ∧ (length (evaluated (run [Input (lit "i"); Elapse 40; Input (lit "in"); Elapse 300]
                            (loadedPage guidePage)))
     ≤ length (evaluated (loadedPage guidePage))
       + length (List.filter isInput
                   [Input (lit "i"); Elapse 40; Input (lit "in"); Elapse 300]))%nat.
Proof.
  split; [reflexivity |].
  apply (runs_bounded_by_keystrokes (loadedPage guidePage) _ eq_refl).
Defined.

(** A keystroke, a short pause, then the last keystroke and 150 ms. *)
Lemma last_keystroke_is_evaluated_witness :
  timers (loadedPage guidePage) = []
  ∧ (150 ≤ 150)%nat
  ∧ timers (run ([Input (lit "i"); Elapse 40] ++ [Input (lit "in"); Elapse 150])
                (loadedPage guidePage)) = [].
Proof.
  assert (150 ≤ 150)%nat as Hquiet by lia.
  split; [reflexivity |]. split; [exact Hquiet |].
  pose proof (last_keystroke_is_evaluated (loadedPage guidePage)
                [Input (lit "i"); Elapse 40] (lit "in") 150 eq_refl Hquiet) as Hthm.
  cbv zeta in Hthm. destruct Hthm as (_ & _ & Htimers). exact Htimers.
Defined.

(** The grouped sidebar from its first state: End, then j, then a collapse. *)
Lemma cursor_never_leaves_range_witness :
  groupedLinks ≠ []
  ∧ navItems (nd_sidebar groupedSidebar) = collectNavItems groupedLinks
  ∧ (0 ≤ currentIndex (nd_sidebar groupedSidebar) ≤ 3)%Z
  ∧ (0 ≤ currentIndex (nd_sidebar
            (fold_left sidebarStep
               [SidebarKey (lit "End") true; SidebarKey (lit "j") true;
                SidebarKey (lit "h") true]
               groupedSidebar)) ≤ 3)%Z.
Proof.
  assert (groupedLinks ≠ []) as Hne by discriminate.
  assert (0 ≤ currentIndex (nd_sidebar groupedSidebar) ≤ 3)%Z as Hcur
    by (simpl; lia).
  split; [exact Hne |]. split; [reflexivity |]. split; [exact Hcur |].
  pose proof (cursor_never_leaves_range groupedLinks groupedSidebar
                [SidebarKey (lit "End") true; SidebarKey (lit "j") true;
                 SidebarKey (lit "h") true] Hne eq_refl) as Hthm.
  cbv zeta in Hthm. destruct Hthm as (_ & _ & Hrange). exact (Hrange Hcur).
Defined.

(** Two steps forward and two back from the first item. *)
Lemma steps_forward_and_back_witness :
  navItems (nd_sidebar groupedSidebar) = collectNavItems groupedLinks
  ∧ Nat.iter 2 navigatePrev (Nat.iter 2 navigateNext (nd_sidebar groupedSidebar))
    = nd_sidebar groupedSidebar.
Proof.
  split; [reflexivity |].
  pose proof (steps_forward_and_back groupedLinks (nd_sidebar groupedSidebar) 2
                eq_refl) as Hthm.
  cbv zeta in Hthm. destruct Hthm as (_ & _ & Hback).
  apply Hback; simpl; lia.
Defined.

(** Enter on the title of the grouped sidebar. *)
Lemma title_key_toggles_twice_witness :
  groupAt groupedSidebar 0 = Some 0%nat
  ∧ nd_groups (keydownOnTitle (lit "Enter") 0 groupedSidebar).1
    = nd_groups groupedSidebar.
Proof.
  assert (groupAt groupedSidebar 0 = Some 0%nat) as Hg by reflexivity.
  split; [exact Hg |].
  destruct (title_key_toggles_twice groupedSidebar 0 0
              {| isAnchor := false; navIndex := Some 0%nat; takesFocus := true |}
              (lit "Enter") (or_introl eq_refl) eq_refl eq_refl eq_refl Hg)
    as (_ & _ & _ & _ & Hsame).
  exact Hsame.
Defined.

(** The section [faq] comes into view in the grouped sidebar. *)
Lemma scroll_spy_keeps_one_active_witness :
  findLink (clearActive groupedSidebar) (lit "#" ++ lit "faq") = Some 3%nat
  ∧ (pl_active <$> nd_places (highlightNavItem (lit "faq") groupedSidebar) !! 3%nat)
    = Some true
  ∧ AtMostOneActive (highlightNavItem (lit "faq") groupedSidebar).
Proof.
  assert (findLink (clearActive groupedSidebar) (lit "#" ++ lit "faq") = Some 3%nat)
    as Hlink by (by vm_compute).
  destruct (scroll_spy_keeps_one_active groupedSidebar (lit "faq") [])
    as (Hone & Hactive & _).
  split; [exact Hlink |]. split; [exact (proj1 (Hactive 3%nat Hlink)) | exact Hone].
Defined.

End FurtherInstances.
